(** * jsStateManager: a hierarchical state manager

    Shallow embedding of [src/statemanager.js] and the properties of its
    registration and transition algorithms.

    Modelling conventions.
    - JavaScript objects live in a store: a [State] object is a record kept in
      a list ([heap]) and referred to by its index ([loc]); [new State(..)]
      appends to the store, so two references are the same object exactly
      when they are the same index.
    - The [_substates] object of a state is a plain object used as a map from
      property keys to states.  Its own properties are a [gmap string loc];
      the properties it inherits from [Object.prototype] (['constructor'],
      ['toString'], ...) are seen by [name in this._substates] as well, and
      reading one gives a value that is no [State]: calling a method of
      [State] on it throws a [TypeError].
    - A name is either a string or [undefined] (what [stateDescr[-1]] reads);
      array indices are integers ([Z]), reads out of range give [undefined].
    - [state.enter()] and [state.exit()] are recorded in a log of method
      calls; [callbacks] tells which context function each call runs and with
      which argument.  What the context functions do is outside the program.
    - The unbounded [while (true)] loop of [changeState] takes a fuel
      argument; running out of it is the completion [OutOfFuel]. *)

From Stdlib Require Import ZArith Lia Ascii.
From stdpp Require Import base option list list_numbers gmap strings.

Open Scope Z_scope.

(** ** Values *)

(** The values that occur as state names and path segments. *)
Inductive jsval :=
  | Undefined
  | Str (s : string).

#[global] Instance jsval_eq_dec : EqDecision jsval.
Proof. solve_decision. Defined.

#[global] Instance Str_inj : Inj (=) (=) Str.
Proof. intros ?? [=]; done. Qed.

(** [a == b] on names: both strings, or both [undefined]. *)
Definition loose_eq (a b : jsval) : bool := bool_decide (a = b).

(** Conversion of a value used as a property key ([name in obj], [obj[name]]). *)
Definition to_key (v : jsval) : string :=
  match v with
  | Undefined => "undefined"
  | Str s => s
  end.

(** Truthiness: [undefined] and the empty string are falsy. *)
Definition truthy (v : jsval) : bool :=
  match v with
  | Undefined => false
  | Str s => negb (bool_decide (s = ""))
  end.

(** [a[i]] on an array of names. *)
Definition arr_get (a : list jsval) (i : Z) : jsval :=
  if bool_decide (0 ≤ i) then default Undefined (a !! Z.to_nat i) else Undefined.

(** [a.length] *)
Definition arr_length (a : list jsval) : Z := Z.of_nat (length a).

(** ** Strings: [split] and [join] *)

(** [s.split(sep)] for a one-character separator: always at least one piece. *)
Fixpoint split (sep : ascii) (s : string) : list string :=
  match s with
  | EmptyString => [EmptyString]
  | String c rest =>
      if bool_decide (c = sep) then EmptyString :: split sep rest
      else match split sep rest with
           | [] => [String c EmptyString]
           | piece :: pieces => String c piece :: pieces
           end
  end.

(** The string an element contributes to [join]: [undefined] gives the empty
    string. *)
Definition join_elem (v : jsval) : string :=
  match v with
  | Undefined => ""
  | Str s => s
  end.

(** [a.join(sep)] *)
Fixpoint join (sep : string) (a : list jsval) : string :=
  match a with
  | [] => ""
  | [v] => join_elem v
  | v :: rest => join_elem v +:+ sep +:+ join sep rest
  end.

(** ** Path parsing and the change level *)

Definition stateDescrFromStateStr (stateStr : string) : list jsval :=
  if bool_decide (stateStr = "") then [] else Str <$> split "."%char stateStr.

(** The [while] loop of [computeChangeLevel]; it runs at most
    [newStateDescr.length] times, which is the fuel it is given. *)
Fixpoint computeChangeLevel_loop (fuel : nat)
    (_currentStateDescr newStateDescr : list jsval) (changeLevel : Z) : Z :=
  match fuel with
  | O => changeLevel
  | S fuel' =>
      if bool_decide (changeLevel < arr_length newStateDescr)
         && bool_decide (changeLevel < arr_length _currentStateDescr)
         && loose_eq (arr_get newStateDescr changeLevel)
                     (arr_get _currentStateDescr changeLevel)
      then computeChangeLevel_loop fuel' _currentStateDescr newStateDescr
             (changeLevel + 1)
      else changeLevel
  end.

Definition computeChangeLevel (_currentStateDescr newStateDescr : list jsval) : Z :=
  computeChangeLevel_loop (length newStateDescr) _currentStateDescr newStateDescr 0.

(** The change level as the specification words it: the length of the longest
    common prefix of the two paths. *)
Fixpoint common_prefix_length (p q : list jsval) : nat :=
  match p, q with
  | a :: p', b :: q' =>
      if decide (a = b) then S (common_prefix_length p' q') else O
  | _, _ => O
  end.

Close Scope Z_scope.

(** ** Objects and the store *)

(** A reference to a [State] object: its index in the store. *)
Abbreviation loc := nat (only parsing).

(** The context object handed to [registerState].  [ctx_enter] and [ctx_exit]
    tell whether [typeof context.enter === 'function'] and likewise for
    [exit]; [defaultSubstate] is the property of that name, absent or a
    string. *)
Record Context := mkContext {
  ctx_enter : bool;
  ctx_exit : bool;
  defaultSubstate : option string
}.

(** The three functions on [State.prototype] that the constructor installs as
    [this.enter] and [this.exit]. *)
Inductive method :=
  | _callContextEnterFunc
  | _callContextExitFunc
  | _dummyFunc.

Record State := mkState {
  _substates : gmap string loc;
  _name : jsval;
  _context : option Context;
  enter : method;
  exit : method
}.

(** The names of the properties of [Object.prototype], which every plain
    object [{}] inherits. *)
Definition Object_prototype : list string :=
  ["constructor"; "__defineGetter__"; "__defineSetter__"; "hasOwnProperty";
   "__lookupGetter__"; "__lookupSetter__"; "isPrototypeOf";
   "propertyIsEnumerable"; "toString"; "valueOf"; "__proto__";
   "toLocaleString"].

Definition inherited (key : string) : bool := bool_decide (key ∈ Object_prototype).

(** What a variable such as [state] or [parentState] holds: a [State] object,
    or the value of an inherited property (a function of [Object.prototype],
    or [Object.prototype] itself for ['__proto__']), which is truthy and has
    none of the methods of [State]. *)
Inductive ref :=
  | Obj (l : loc)
  | Inherited (key : string).

(** [key in o] on a [_substates] object. *)
Definition js_in (key : string) (o : gmap string loc) : bool :=
  bool_decide (is_Some (o !! key)) || inherited key.

(** [o[key]] on a [_substates] object, where [key in o] holds: the own
    property if there is one, the inherited one otherwise. *)
Definition js_get (o : gmap string loc) (key : string) : ref :=
  match o !! key with
  | Some l => Obj l
  | None => Inherited key
  end.

(** [new State(name, context)] *)
Definition new_State (name : jsval) (context : option Context) : State :=
  {| _substates := ∅;
     _name := name;
     _context := context;
     enter := match context with
              | Some c => if ctx_enter c then _callContextEnterFunc else _dummyFunc
              | None => _dummyFunc
              end;
     exit := match context with
             | Some c => if ctx_exit c then _callContextExitFunc else _dummyFunc
             | None => _dummyFunc
             end |}.

(** The private variables of a [StateManager], with the store its states
    live in. *)
Record StateManager := mkStateManager {
  heap : list State;
  _worldState : loc;
  _currentStateDescr : list jsval
}.

(** [new StateManager()] *)
Definition new_StateManager : StateManager :=
  {| heap := [new_State (Str "__WORLD__") None];
     _worldState := 0;
     _currentStateDescr := [] |}.

(** A call [state.enter()] or [state.exit()] on the object [state]. *)
Inductive event :=
  | Enter (state : loc)
  | Exit (state : loc).

(** An invocation [context.enter(name)] or [context.exit(name)]. *)
Inductive callback :=
  | ContextEnter (name : jsval)
  | ContextExit (name : jsval).

(** What a method does when it is run on [st]. *)
Definition run_method (f : method) (st : State) : list callback :=
  match f with
  | _callContextEnterFunc => [ContextEnter (_name st)]
  | _callContextExitFunc => [ContextExit (_name st)]
  | _dummyFunc => []
  end.

(** The context functions run by a log of method calls. *)
Definition callbacks (h : list State) (log : list event) : list callback :=
  log ≫= λ e,
    match e with
    | Enter l => from_option (λ st, run_method (enter st) st) [] (h !! l)
    | Exit l => from_option (λ st, run_method (exit st) st) [] (h !! l)
    end.

(** ** Exceptions and the monad of the program *)

(** The two strings the program throws, and the [TypeError] of a call of a
    [State] method on a value that has none.  [DanglingReference] is the use
    of an index that is not in the store, which no reference of the program
    is. *)
Inductive exn :=
  | SubstateAlreadyExists
  | UnknownSubstate
  | TypeError
  | DanglingReference.

Inductive completion (A : Type) :=
  | Return (a : A)
  | Throw (e : exn)
  | OutOfFuel.
Arguments Return {A} a.
Arguments Throw {A} e.
Arguments OutOfFuel {A}.

(** A computation reads and writes the manager, appends to the log of method
    calls and completes. *)
Definition Eff (A : Type) : Type :=
  StateManager * list event → StateManager * list event * completion A.

#[global] Instance Eff_ret : MRet Eff := λ A a σ, (σ, Return a).
#[global] Instance Eff_bind : MBind Eff := λ A B f c σ,
  match c σ with
  | (σ', Return a) => f a σ'
  | (σ', Throw e) => (σ', Throw e)
  | (σ', OutOfFuel) => (σ', OutOfFuel)
  end.

Definition throw {A} (e : exn) : Eff A := λ σ, (σ, Throw e).
Definition out_of_fuel {A} : Eff A := λ σ, (σ, OutOfFuel).
Definition emit (e : event) : Eff unit := λ σ, ((σ.1, σ.2 ++ [e]), Return tt).
Definition deref (l : loc) : Eff State := λ σ,
  match heap σ.1 !! l with
  | Some st => (σ, Return st)
  | None => (σ, Throw DanglingReference)
  end.
Definition store (l : loc) (st : State) : Eff unit := λ σ,
  ((mkStateManager (<[l := st]> (heap σ.1)) (_worldState σ.1) (_currentStateDescr σ.1),
    σ.2), Return tt).
Definition alloc (st : State) : Eff loc := λ σ,
  ((mkStateManager (heap σ.1 ++ [st]) (_worldState σ.1) (_currentStateDescr σ.1),
    σ.2), Return (length (heap σ.1))).
Definition get_worldState : Eff loc := λ σ, (σ, Return (_worldState σ.1)).
Definition get_currentStateDescr : Eff (list jsval) :=
  λ σ, (σ, Return (_currentStateDescr σ.1)).
Definition set_currentStateDescr (d : list jsval) : Eff unit := λ σ,
  ((mkStateManager (heap σ.1) (_worldState σ.1) d, σ.2), Return tt).

(** A method call [state.method(..)]: the value must be a [State]. *)
Definition call {A} (state : ref) (method : loc → Eff A) : Eff A :=
  match state with
  | Obj this => method this
  | Inherited _ => throw TypeError
  end.

(** [for (var i = 0; i < n; ++i) body], with the variables the body assigns
    as the loop state; [idxs] is [seqZ 0 n]. *)
Fixpoint for_each {S : Type} (idxs : list Z) (body : Z → S → Eff S) (s : S) : Eff S :=
  match idxs with
  | [] => mret s
  | i :: idxs' => s' ← body i s; for_each idxs' body s'
  end.

(** ** The methods of [State] *)

(** [st._substates[key] = substate] *)
Definition add_key (st : State) (key : string) (substate : loc) : State :=
  mkState (<[key := substate]> (_substates st))
    (_name st) (_context st) (enter st) (exit st).

Definition addSubstate (this : loc) (substate : loc) : Eff unit :=
  sub ← deref substate;
  let substateName := _name sub in
  st ← deref this;
  if js_in (to_key substateName) (_substates st) then
    throw SubstateAlreadyExists
  else
    store this (add_key st (to_key substateName) substate).

Definition getName (this : loc) : Eff jsval :=
  st ← deref this; mret (_name st).

Definition getSubstate (this : loc) (name : jsval) : Eff ref :=
  st ← deref this;
  if js_in (to_key name) (_substates st) then
    mret (js_get (_substates st) (to_key name))
  else
    throw UnknownSubstate.

(** Returns [null] ([None]) or the value of the property. *)
Definition getDefaultSubstate (this : loc) : Eff (option ref) :=
  st ← deref this;
  let name := match _context st with
              | Some c => from_option Str Undefined (defaultSubstate c)
              | None => Undefined
              end in
  if truthy name && js_in (to_key name) (_substates st) then
    mret (Some (js_get (_substates st) (to_key name)))
  else mret None.

(** The methods [enter] and [exit] of a state *)
Definition call_enter (this : loc) : Eff unit := _ ← deref this; emit (Enter this).
Definition call_exit (this : loc) : Eff unit := _ ← deref this; emit (Exit this).

(** ** The methods of [StateManager] *)

Definition registerState (stateStr : string) (context : option Context) : Eff unit :=
  let stateDescr := stateDescrFromStateStr stateStr in
  let stateDepth := arr_length stateDescr in
  world ← get_worldState;
  parentState ← for_each (seqZ 0 (stateDepth - 1))
    (λ i parentState,
       call parentState (λ this, getSubstate this (arr_get stateDescr i)))
    (Obj world);
  substate ← alloc (new_State (arr_get stateDescr (stateDepth - 1)) context);
  call parentState (λ this, addSubstate this substate).

(** [while (exitStates.length > 0) exitStates.pop().exit()]; the array
    shrinks by one each round, so its length is fuel enough. *)
Fixpoint exit_all (fuel : nat) (exitStates : list ref) : Eff unit :=
  match fuel with
  | O => mret tt
  | S fuel' =>
      match last exitStates with
      | Some state => call state call_exit;; exit_all fuel' (removelast exitStates)
      | None => mret tt
      end
  end.

(** The [while (true)] loop that enters the default substates. *)
Fixpoint enter_defaults (fuel : nat) (state : ref) : Eff unit :=
  match fuel with
  | O => out_of_fuel
  | S fuel' =>
      d ← call state getDefaultSubstate;
      match d with
      | Some state' =>
          call state' call_enter;;
          name ← call state' getName;
          descr ← get_currentStateDescr;
          set_currentStateDescr (descr ++ [name]);;
          enter_defaults fuel' state'
      | None => mret tt
      end
  end.

Definition changeState (fuel : nat) (newStateStr : string) (forceAll : bool) : Eff unit :=
  let newStateDescr := stateDescrFromStateStr newStateStr in
  _currentStateDescr ← get_currentStateDescr;
  let changeLevel := computeChangeLevel _currentStateDescr newStateDescr in
  world ← get_worldState;
  '(_, exitStates) ← for_each (seqZ 0 (arr_length _currentStateDescr))
    (λ i '(state, exitStates),
       state ← call state (λ this, getSubstate this (arr_get _currentStateDescr i));
       mret (state,
             if bool_decide (changeLevel ≤ i)%Z || forceAll
             then exitStates ++ [state] else exitStates))
    (Obj world, []);
  exit_all (length exitStates) exitStates;;
  state ← for_each (seqZ 0 (arr_length newStateDescr))
    (λ i state,
       state ← call state (λ this, getSubstate this (arr_get newStateDescr i));
       (if bool_decide (changeLevel ≤ i)%Z || forceAll
        then call state call_enter else mret tt);;
       mret state)
    (Obj world);
  set_currentStateDescr newStateDescr;;
  enter_defaults fuel state.

Definition currentState (m : StateManager) : string :=
  join "." (_currentStateDescr m).

(** Running a method on a manager, from an empty log. *)
Definition run {A} (c : Eff A) (m : StateManager) : StateManager * list event * completion A :=
  c (m, []).

(** ** Paths in the store *)

(** The substate of [l] stored under the key of [name], if any. *)
Definition child (h : list State) (l : loc) (name : jsval) : option loc :=
  st ← h !! l; _substates st !! to_key name.

(** The states met when walking [descr] from [l]; [None] when a segment has
    no substate. *)
Fixpoint resolve (h : list State) (l : loc) (descr : list jsval) : option (list loc) :=
  match descr with
  | [] => Some []
  | name :: descr' => c ← child h l name; (c ::.) <$> resolve h c descr'
  end.

(** The states met before the first segment that has no substate. *)
Fixpoint resolve_prefix (h : list State) (l : loc) (descr : list jsval) : list loc :=
  match descr with
  | [] => []
  | name :: descr' =>
      match child h l name with
      | Some c => c :: resolve_prefix h c descr'
      | None => []
      end
  end.

(** The state a walk ends in. *)
Definition leaf (l : loc) (nodes : list loc) : loc := default l (last nodes).

(** The substate that [getDefaultSubstate] finds. *)
Definition default_child (h : list State) (l : loc) : option loc :=
  st ← h !! l;
  c ← _context st;
  name ← defaultSubstate c;
  if truthy (Str name) then _substates st !! name else None.

(** The chain of default substates below [l], down to a state without one. *)
Inductive default_chain (h : list State) : loc → list loc → Prop :=
  | default_chain_nil l :
      default_child h l = None → default_chain h l []
  | default_chain_cons l c chain :
      default_child h l = Some c → default_chain h c chain →
      default_chain h l (c :: chain).

(** Whether the first segment of [descr] that has no substate, walking from
    [l], is the name of an inherited property. *)
Fixpoint fails_at_inherited (h : list State) (l : loc) (descr : list jsval) : bool :=
  match descr with
  | [] => false
  | name :: descr' =>
      match child h l name with
      | Some c => fails_at_inherited h c descr'
      | None => inherited (to_key name)
      end
  end.

(** Whether the context of [l] names, as default substate, an inherited
    property that is no substate of [l]: [getDefaultSubstate] then returns
    a value that is no state. *)
Definition default_inherited (h : list State) (l : loc) : bool :=
  match h !! l with
  | Some st =>
      match _context st with
      | Some c =>
          match defaultSubstate c with
          | Some name =>
              truthy (Str name)
              && bool_decide (_substates st !! name = None) && inherited name
          | None => false
          end
      | None => false
      end
  | None => false
  end.

(** How the loop over the default substates ends at the state [l] that has
    no default substate: normally, or with the [TypeError] of calling
    [enter] on an inherited value. *)
Definition cascade_completion (h : list State) (l : loc) : completion unit :=
  if default_inherited h l then Throw TypeError else Return tt.

(** What the loop of [registerState] over the segments [descr] leaves in
    [parentState], walking from [l]: the state found, the value of an
    inherited property when the last segment is the name of one, or the
    exception of the segment that fails. *)
Fixpoint ancestor_walk (h : list State) (l : loc) (descr : list jsval) : completion ref :=
  match descr with
  | [] => Return (Obj l)
  | name :: descr' =>
      match child h l name with
      | Some c => ancestor_walk h c descr'
      | None =>
          if inherited (to_key name) then
            match descr' with
            | [] => Return (Inherited (to_key name))
            | _ :: _ => Throw TypeError
            end
          else Throw UnknownSubstate
      end
  end.

(** The name of the object at [l]. *)
Definition name_of (h : list State) (l : loc) : jsval :=
  from_option _name Undefined (h !! l).

(** The store is a forest grown by allocation: a substate was allocated after
    its parent, and it is stored under the key of its name. *)
Definition wf_heap (h : list State) : Prop :=
  ∀ l st key c, h !! l = Some st → _substates st !! key = Some c →
    l < c ∧ ∃ cst, h !! c = Some cst ∧ to_key (_name cst) = key.

(** The invariant of a manager: the world state exists, the store is well
    formed and the current path can be walked from the world state. *)
Definition wf (m : StateManager) : Prop :=
  is_Some (heap m !! _worldState m) ∧
  wf_heap (heap m) ∧
  is_Some (resolve (heap m) (_worldState m) (_currentStateDescr m)).

(** The managers a program can build: [new StateManager()] followed by calls
    of [registerState] and [changeState] that complete, normally or by
    throwing. *)
Inductive reachable : StateManager → Prop :=
  | reachable_new : reachable new_StateManager
  | reachable_registerState m stateStr context m' log r :
      reachable m →
      run (registerState stateStr context) m = (m', log, r) →
      reachable m'
  | reachable_changeState m fuel newStateStr forceAll m' log r :
      reachable m →
      run (changeState fuel newStateStr forceAll) m = (m', log, r) →
      r ≠ OutOfFuel →
      reachable m'.

(** A [for] loop over the elements of an array, with their indices. *)
Fixpoint for_list {S : Type} (i : Z) (a : list jsval)
    (body : Z → jsval → S → Eff S) (s : S) : Eff S :=
  match a with
  | [] => mret s
  | x :: a' => s' ← body i x s; for_list (i + 1) a' body s'
  end.

(** The body of the loop of [changeState] that collects the states to exit,
    on the segment [x] at index [i]. *)
Definition exit_body (changeLevel : Z) (forceAll : bool)
    (i : Z) (x : jsval) (s : ref * list ref) : Eff (ref * list ref) :=
  let '(state, exitStates) := s in
  state ← call state (λ this, getSubstate this x);
  mret (state,
        if bool_decide (changeLevel ≤ i)%Z || forceAll
        then exitStates ++ [state] else exitStates).

(** The body of the loop of [changeState] that enters the new states. *)
Definition enter_body (changeLevel : Z) (forceAll : bool)
    (i : Z) (x : jsval) (state : ref) : Eff ref :=
  state ← call state (λ this, getSubstate this x);
  (if bool_decide (changeLevel ≤ i)%Z || forceAll
   then call state call_enter else mret tt);;
  mret state.

(** The states of a walk that a transition touches: those from the change
    level on, or all of them when forced. *)
Definition touched (changeLevel : nat) (forceAll : bool) (nodes : list loc) : list loc :=
  if forceAll then nodes else drop changeLevel nodes.

(** The segments of a path before the last one, which [registerState] walks
    to find the parent. *)
Definition ancestors (stateDescr : list jsval) : list jsval :=
  take (length stateDescr - 1) stateDescr.

(** The name [registerState] gives the new state: the last segment. *)
Definition last_segment (stateDescr : list jsval) : jsval :=
  arr_get stateDescr (arr_length stateDescr - 1).

(** A manager with another store. *)
Definition with_heap (m : StateManager) (h : list State) : StateManager :=
  mkStateManager h (_worldState m) (_currentStateDescr m).

(** A manager with another current path. *)
Definition with_currentStateDescr (m : StateManager) (d : list jsval) : StateManager :=
  mkStateManager (heap m) (_worldState m) d.

(** The store [h'] keeps every link of [h] from a state to a substate: the
    tree only grows. *)
Definition extends (h h' : list State) : Prop :=
  ∀ l name c, child h l name = Some c → child h' l name = Some c.

(** A computation that leaves the current path, the world state reference
    and the log of method calls as they are, however it completes. *)
Definition keeps_path {A} (c : Eff A) : Prop :=
  ∀ σ, _currentStateDescr (c σ).1.1 = _currentStateDescr σ.1 ∧
       _worldState (c σ).1.1 = _worldState σ.1 ∧
       (c σ).1.2 = σ.2.

(** ** Example managers *)

(** The manager after a call. *)
Definition after {A} (c : Eff A) (m : StateManager) : StateManager := (run c m).1.1.

(** The log of method calls of a call. *)
Definition log_of {A} (c : Eff A) (m : StateManager) : list event := (run c m).1.2.

(** How a call completes. *)
Definition completion_of {A} (c : Eff A) (m : StateManager) : completion A := (run c m).2.

(** A new manager on which the given paths were registered in order. *)
Definition registered (paths : list (string * option Context)) : StateManager :=
  foldl (λ m p, after (registerState p.1 p.2) m) new_StateManager paths.

(** A context with [enter] and [exit] functions and no default substate. *)
Definition logging : option Context := Some (mkContext true true None).

(** A context with [enter] and [exit] functions and a default substate. *)
Definition logging_default (name : string) : option Context :=
  Some (mkContext true true (Some name)).

(** The states [a], [a.b], [a.b.c], [a.b.d], [a.c] and [a.c.d], at the
    references 1 to 6. *)
Definition example_tree : StateManager :=
  registered [("a", logging); ("a.b", logging); ("a.b.c", logging);
              ("a.b.d", logging); ("a.c", logging); ("a.c.d", logging)].

(** The states [a], [a.b] and [a.b.c], where [a] has the default substate [b]
    and [a.b] the default substate [c]. *)
Definition example_chain : StateManager :=
  registered [("a", logging_default "b"); ("a.b", logging_default "c");
              ("a.b.c", logging)].

(** ** Notions for the further properties *)

(** The number of occurrences of the character [c] in [s]. *)
Fixpoint count_char (c : ascii) (s : string) : nat :=
  match s with
  | EmptyString => 0
  | String a rest => (if bool_decide (a = c) then 1 else 0) + count_char c rest
  end.

(** A computation that leaves the store and the world state reference as they
    are, however it completes. *)
Definition keeps_heap {A} (c : Eff A) : Prop :=
  ∀ σ, heap (c σ).1.1 = heap σ.1 ∧ _worldState (c σ).1.1 = _worldState σ.1.

(** Whether the context of a state has an [enter] function, and an [exit]
    function. *)
Definition has_enter (st : State) : bool :=
  from_option ctx_enter false (_context st).
Definition has_exit (st : State) : bool :=
  from_option ctx_exit false (_context st).

(** The [enter] and [exit] methods of [st] are those the constructor installs
    for its context. *)
Definition constructed (st : State) : Prop :=
  enter st = enter (new_State (_name st) (_context st)) ∧
  exit st = exit (new_State (_name st) (_context st)).

(** The world state has no context, and every object of the store has the
    methods the constructor gave it. *)
Definition wf_objects (m : StateManager) : Prop :=
  (∃ world, heap m !! _worldState m = Some world ∧ _context world = None) ∧
  Forall constructed (heap m).

(** The states that are entered and not exited after a log of method calls,
    outermost first, when every [exit] is on the state entered last; [None]
    when some [exit] is not. *)
Fixpoint replay (log : list event) (active : list loc) : option (list loc) :=
  match log with
  | [] => Some active
  | Enter l :: log' => replay log' (active ++ [l])
  | Exit l :: log' =>
      match last active with
      | Some l' => if decide (l' = l) then replay log' (removelast active) else None
      | None => None
      end
  end.

(** A manager with the log of all method calls made on the way to it: a new
    manager, then [registerState] calls and [changeState] calls that return
    normally. *)
Inductive history : StateManager → list event → Prop :=
  | history_new : history new_StateManager []
  | history_registerState m log stateStr context m' log' r :
      history m log →
      run (registerState stateStr context) m = (m', log', r) →
      history m' (log ++ log')
  | history_changeState m log fuel newStateStr forceAll m' log' :
      history m log →
      run (changeState fuel newStateStr forceAll) m = (m', log', Return tt) →
      history m' (log ++ log').

(** No state has two parents, and the world state has none. *)
Definition tree (m : StateManager) : Prop :=
  (∀ l x, child (heap m) l x ≠ Some (_worldState m)) ∧
  (∀ l1 l2 x1 x2 c,
     child (heap m) l1 x1 = Some c → child (heap m) l2 x2 = Some c → l1 = l2).

(** ** Notions for the claims on transitions *)

(** The context functions that calls of [exit] on the states [nodes] run, in
    order: [context.exit(name)] for each state whose context has an [exit]
    function.  Likewise for [enter]. *)
Definition exit_calls (h : list State) (nodes : list loc) : list callback :=
  nodes ≫= λ l,
    match h !! l with
    | Some st => if has_exit st then [ContextExit (_name st)] else []
    | None => []
    end.

Definition enter_calls (h : list State) (nodes : list loc) : list callback :=
  nodes ≫= λ l,
    match h !! l with
    | Some st => if has_enter st then [ContextEnter (_name st)] else []
    | None => []
    end.

(** What the specification says of the callbacks of one transition: the
    [exit] functions of the states of the current path from the change level
    on (of all of them when forced), deepest first, and then the [enter]
    functions of the states of the new path from the change level on (of all
    of them when forced), shallowest first, and no others.  The states of
    the new path are those its segments lead to. *)
Definition callbacks_as_specified (m : StateManager) (fuel : nat)
    (newStateStr : string) (forceAll : bool) : Prop :=
  let cur := _currentStateDescr m in
  let new := stateDescrFromStateStr newStateStr in
  let k := Z.to_nat (computeChangeLevel cur new) in
  ∃ curNodes,
    resolve (heap m) (_worldState m) cur = Some curNodes ∧
    callbacks (heap m) (log_of (changeState fuel newStateStr forceAll) m)
    = exit_calls (heap m) (rev (if forceAll then curNodes else drop k curNodes))
      ++ enter_calls (heap m)
           (if forceAll then resolve_prefix (heap m) (_worldState m) new
            else drop k (resolve_prefix (heap m) (_worldState m) new)).

(** What the specification says of a transition that fails: no state that
    was exited is entered again. *)
Definition no_exited_state_entered (log : list event) : Prop :=
  ∀ l, Exit l ∈ log → Enter l ∉ log.

(** Only a substate of the world state has the name [undefined] (it was
    registered with the empty string), and no segment of the current path is
    [undefined]. *)
Definition named (m : StateManager) : Prop :=
  (∀ l x c cst,
     child (heap m) l x = Some c → heap m !! c = Some cst →
     _name cst = Undefined → l = _worldState m) ∧
  Forall (λ x, x ≠ Undefined) (_currentStateDescr m).


(** * Properties *)

(** ** Arrays and strings *)

Lemma arr_get_app_r (pre a : list jsval) (x : jsval) :
  arr_get (pre ++ x :: a) (arr_length pre) = x.
Proof.
  unfold arr_get, arr_length. rewrite bool_decide_true by lia.
  rewrite Nat2Z.id, lookup_app_r by lia. by rewrite Nat.sub_diag.
Qed.

Lemma arr_get_nat (a : list jsval) (i : nat) :
  arr_get a (Z.of_nat i) = default Undefined (a !! i).
Proof. unfold arr_get. rewrite bool_decide_true by lia. by rewrite Nat2Z.id. Qed.

Lemma split_not_nil sep s : split sep s ≠ [].
Proof. destruct s as [|c s]; simpl; [done|]. case_bool_decide; [done|]. by destruct (split sep s). Qed.

Lemma join_cons sep v w rest :
  join sep (v :: w :: rest) = join_elem v +:+ sep +:+ join sep (w :: rest).
Proof. done. Qed.

Lemma join_String sep a p rest :
  join sep (Str (String a p) :: rest) = String a (join sep (Str p :: rest)).
Proof. by destruct rest. Qed.

(** Joining the pieces of a split with the separator gives the string back. *)
Lemma join_split (c : ascii) (s : string) :
  join (String c EmptyString) (Str <$> split c s) = s.
Proof.
  induction s as [|a s IH]; [done|].
  simpl split. pose proof (split_not_nil c s) as Hne.
  destruct (split c s) as [|p ps]; [done|].
  case_bool_decide as Hc.
  - subst a.
    change (Str <$> "" :: p :: ps) with (Str "" :: Str p :: (Str <$> ps)).
    rewrite join_cons. change (Str p :: (Str <$> ps)) with (Str <$> p :: ps).
    by rewrite IH.
  - change (Str <$> String a p :: ps) with (Str (String a p) :: (Str <$> ps)).
    rewrite join_String. change (Str p :: (Str <$> ps)) with (Str <$> p :: ps).
    by rewrite IH.
Qed.

Lemma join_stateDescrFromStateStr (s : string) :
  join "." (stateDescrFromStateStr s) = s.
Proof.
  unfold stateDescrFromStateStr. case_bool_decide; [by subst|].
  apply (join_split "."%char).
Qed.

(** ** The change level *)

Lemma computeChangeLevel_loop_common_prefix fuel pre cur new :
  length new ≤ fuel →
  computeChangeLevel_loop fuel (pre ++ cur) (pre ++ new) (arr_length pre)
  = (arr_length pre + Z.of_nat (common_prefix_length cur new))%Z.
Proof.
  revert pre cur new. induction fuel as [|fuel IH]; intros pre cur new Hfuel.
  - destruct new; simpl in *; [|lia]. destruct cur; simpl; lia.
  - simpl. destruct new as [|b new].
    { rewrite app_nil_r. rewrite (bool_decide_false (_ < arr_length pre)%Z) by lia.
      destruct cur; simpl; lia. }
    destruct cur as [|a cur].
    { rewrite app_nil_r. rewrite (bool_decide_false (_ < arr_length pre)%Z) by lia.
      rewrite andb_false_r. simpl. lia. }
    rewrite !arr_get_app_r.
    assert (∀ x (a : list jsval), arr_length pre < arr_length (pre ++ x :: a))%Z as Hlt
      by (intros; unfold arr_length; rewrite length_app; simpl; lia).
    rewrite !(bool_decide_true _ (Hlt _ _)). simpl.
    unfold loose_eq. destruct (decide (b = a)) as [->|Hne].
    + rewrite (bool_decide_true (a = a)) by done.
      rewrite !(cons_middle a), !app_assoc.
      replace (arr_length pre + 1)%Z with (arr_length (pre ++ [a]))
        by (unfold arr_length; rewrite length_app; simpl; lia).
      rewrite IH by (simpl in Hfuel; lia).
      rewrite decide_True by done.
      unfold arr_length. rewrite length_app. simpl. lia.
    + rewrite bool_decide_false by done.
      rewrite decide_False by congruence. lia.
Qed.

(** The loop computes the length of the longest common prefix. *)
Lemma computeChangeLevel_common_prefix cur new :
  computeChangeLevel cur new = Z.of_nat (common_prefix_length cur new).
Proof.
  unfold computeChangeLevel.
  by rewrite (computeChangeLevel_loop_common_prefix _ [] cur new).
Qed.

Lemma common_prefix_length_le p q :
  common_prefix_length p q ≤ length p ∧ common_prefix_length p q ≤ length q.
Proof.
  revert q. induction p as [|a p IH]; intros [|b q]; simpl; try lia.
  case_decide; simpl; [|lia]. destruct (IH q). lia.
Qed.

Lemma common_prefix_length_agree p q i :
  i < common_prefix_length p q → p !! i = q !! i.
Proof.
  revert q i. induction p as [|a p IH]; intros [|b q] i; simpl; try lia.
  case_decide; [|lia]. subst. destruct i; simpl; [done|]. intros. apply IH. lia.
Qed.

Lemma common_prefix_length_largest p q k :
  k ≤ length p → k ≤ length q → (∀ i, i < k → p !! i = q !! i) →
  k ≤ common_prefix_length p q.
Proof.
  revert q k. induction p as [|a p IH]; intros [|b q] k; simpl; try lia.
  intros Hp Hq Hagree. destruct k as [|k]; [lia|].
  pose proof (Hagree 0 ltac:(lia)) as H0. simpl in H0. injection H0 as ->.
  rewrite decide_True by done.
  apply le_n_S, IH; [lia..|]. intros i Hi. apply (Hagree (S i)). lia.
Qed.

Lemma common_prefix_length_stop p q :
  common_prefix_length p q = length p ∨ common_prefix_length p q = length q ∨
  p !! common_prefix_length p q ≠ q !! common_prefix_length p q.
Proof.
  revert q. induction p as [|a p IH]; intros [|b q]; simpl; auto.
  case_decide; simpl; [|right; right; congruence].
  destruct (IH q) as [->| [->|?]]; auto.
Qed.

Lemma common_prefix_length_refl p : common_prefix_length p p = length p.
Proof. induction p; simpl; [done|]. rewrite decide_True by done. by rewrite IHp. Qed.

(** ** Running the primitives *)

Lemma bind_run {A B} (c : Eff A) (f : A → Eff B) σ :
  (c ≫= f) σ = match c σ with
               | (σ', Return a) => f a σ'
               | (σ', Throw e) => (σ', Throw e)
               | (σ', OutOfFuel) => (σ', OutOfFuel)
               end.
Proof. done. Qed.

Lemma bind_run_Return {A B} (c : Eff A) (f : A → Eff B) σ σ' a :
  c σ = (σ', Return a) → (c ≫= f) σ = f a σ'.
Proof. intros H. by rewrite bind_run, H. Qed.

Lemma deref_Some l st σ :
  heap σ.1 !! l = Some st → deref l σ = (σ, Return st).
Proof. unfold deref. by intros ->. Qed.

Lemma js_in_child h this name st :
  h !! this = Some st →
  js_in (to_key name) (_substates st)
  = bool_decide (is_Some (child h this name)) || inherited (to_key name).
Proof. intros Hst. unfold js_in, child. by rewrite Hst. Qed.

Lemma js_in_false key o :
  js_in key o = false → o !! key = None ∧ inherited key = false.
Proof.
  unfold js_in. intros [Hown Hinh]%orb_false_elim. split; [|done].
  apply bool_decide_eq_false in Hown. by apply eq_None_not_Some.
Qed.

Lemma js_in_own key o l : o !! key = Some l → js_in key o = true.
Proof. unfold js_in. intros ->. by rewrite bool_decide_true by eauto. Qed.

Lemma getSubstate_run this name st σ :
  heap σ.1 !! this = Some st →
  getSubstate this name σ
  = (σ, match child (heap σ.1) this name with
        | Some sub => Return (Obj sub)
        | None =>
            if inherited (to_key name) then Return (Inherited (to_key name))
            else Throw UnknownSubstate
        end).
Proof.
  intros Hst. unfold getSubstate, child, js_in, js_get.
  rewrite (bind_run_Return _ _ _ _ _ (deref_Some _ _ _ Hst)), Hst. simpl.
  destruct (_substates st !! to_key name) as [sub|]; simpl; [done|].
  by destruct (inherited (to_key name)).
Qed.

(** [getDefaultSubstate] returns the default substate when there is one, the
    value of an inherited property when the default name is the name of one
    and of no substate, and [null] otherwise. *)
Lemma getDefaultSubstate_run this st σ :
  heap σ.1 !! this = Some st →
  ∃ d, getDefaultSubstate this σ = (σ, Return d) ∧
       match default_child (heap σ.1) this with
       | Some c => d = Some (Obj c)
       | None =>
           if default_inherited (heap σ.1) this
           then ∃ key, d = Some (Inherited key)
           else d = None
       end.
Proof.
  intros Hst. unfold getDefaultSubstate, default_child, default_inherited, js_in, js_get.
  rewrite (bind_run_Return _ _ _ _ _ (deref_Some _ _ _ Hst)), Hst. simpl.
  destruct (_context st) as [c|]; simpl; [|by eexists].
  destruct (defaultSubstate c) as [name|]; simpl; [|by eexists].
  destruct (negb _); simpl; [|by eexists].
  destruct (_substates st !! name) as [sub|] eqn:Hsub; simpl; [by eexists|].
  destruct (inherited name); eexists; split; eauto.
Qed.

Lemma getName_run this st σ :
  heap σ.1 !! this = Some st → getName this σ = (σ, Return (_name st)).
Proof.
  intros Hst. unfold getName.
  by rewrite (bind_run_Return _ _ _ _ _ (deref_Some _ _ _ Hst)).
Qed.

Lemma call_enter_run state st σ :
  heap σ.1 !! state = Some st →
  call_enter state σ = ((σ.1, σ.2 ++ [Enter state]), Return tt).
Proof.
  intros Hst. unfold call_enter.
  by rewrite (bind_run_Return _ _ _ _ _ (deref_Some _ _ _ Hst)).
Qed.

Lemma call_exit_run state st σ :
  heap σ.1 !! state = Some st →
  call_exit state σ = ((σ.1, σ.2 ++ [Exit state]), Return tt).
Proof.
  intros Hst. unfold call_exit.
  by rewrite (bind_run_Return _ _ _ _ _ (deref_Some _ _ _ Hst)).
Qed.

(** A [for] loop over the indices of an array is a loop over its elements. *)
Lemma for_each_for_list {S} (body : Z → jsval → S → Eff S) a :
  ∀ pre post s σ,
    for_each (seqZ (arr_length pre) (arr_length a))
      (λ i, body i (arr_get (pre ++ a ++ post) i)) s σ
    = for_list (arr_length pre) a body s σ.
Proof.
  induction a as [|x a IH]; intros pre post s σ.
  - by rewrite seqZ_nil.
  - rewrite seqZ_cons by (unfold arr_length; simpl; lia). simpl.
    rewrite !bind_run. rewrite arr_get_app_r.
    destruct (body (arr_length pre) x s σ) as [[m' log'] [s'| |]]; try done.
    specialize (IH (pre ++ [x]) post s' (m', log')).
    rewrite <-(assoc_L (++)) in IH. simpl in IH.
    replace (arr_length (pre ++ [x])) with (Z.succ (arr_length pre)) in IH
      by (unfold arr_length; rewrite length_app; simpl; lia).
    replace (Z.pred (arr_length (x :: a))) with (arr_length a)
      by (unfold arr_length; simpl; lia).
    rewrite IH. by replace (Z.succ (arr_length pre)) with (arr_length pre + 1)%Z by lia.
Qed.

(** ** Walks *)

Lemma resolve_length h l descr nodes :
  resolve h l descr = Some nodes → length nodes = length descr.
Proof.
  revert l nodes. induction descr as [|x descr IH]; intros l nodes; simpl.
  - by intros [= <-].
  - destruct (child h l x) as [c|]; simpl; [|done].
    destruct (resolve h c descr) as [nodes'|] eqn:Hr; simpl; [|done].
    intros [= <-]. simpl. f_equal. by eapply IH.
Qed.

Lemma resolve_prefix_resolve h l descr nodes :
  resolve h l descr = Some nodes → resolve_prefix h l descr = nodes.
Proof.
  revert l nodes. induction descr as [|x descr IH]; intros l nodes; simpl.
  - by intros [= <-].
  - destruct (child h l x) as [c|]; simpl; [|done].
    destruct (resolve h c descr) as [nodes'|] eqn:Hr; simpl; [|done].
    intros [= <-]. f_equal. by apply IH.
Qed.

Lemma leaf_cons l c nodes : leaf l (c :: nodes) = leaf c nodes.
Proof.
  unfold leaf. rewrite last_cons. by destruct (last nodes).
Qed.

Lemma touched_cons (k : Z) forceAll (i : Z) c nodes :
  touched (Z.to_nat (k - i)) forceAll (c :: nodes)
  = if bool_decide (k ≤ i)%Z || forceAll
    then c :: touched (Z.to_nat (k - (i + 1))) forceAll nodes
    else touched (Z.to_nat (k - (i + 1))) forceAll nodes.
Proof.
  unfold touched. destruct forceAll; rewrite ?orb_true_r, ?orb_false_r; [done|].
  case_bool_decide.
  - replace (Z.to_nat (k - i)) with 0 by lia.
    by replace (Z.to_nat (k - (i + 1))) with 0 by lia.
  - by replace (Z.to_nat (k - i)) with (S (Z.to_nat (k - (i + 1)))) by lia.
Qed.

Lemma touched_nil k forceAll : touched k forceAll [] = [].
Proof. unfold touched. rewrite drop_nil. by destruct forceAll. Qed.

(** The common prefix with a path that resolves resolves. *)
Lemma common_prefix_resolves h l cur new nodes :
  resolve h l cur = Some nodes →
  common_prefix_length cur new ≤ length (resolve_prefix h l new).
Proof.
  revert l new nodes. induction cur as [|x cur IH]; intros l new nodes; simpl; [lia|].
  destruct new as [|y new]; [lia|]. case_decide as Hxy; [subst y|lia].
  simpl resolve_prefix.
  destruct (child h l x) as [c|]; simpl; [|done].
  destruct (resolve h c cur) as [nodes'|] eqn:Hr; simpl; [|done].
  intros _. specialize (IH c new nodes' Hr). lia.
Qed.

(** The loop of [registerState] ends in the state the ancestors resolve to,
    and in no state when they do not resolve. *)
Lemma ancestor_walk_resolve h l descr nodes :
  resolve h l descr = Some nodes → ancestor_walk h l descr = Return (Obj (leaf l nodes)).
Proof.
  revert l nodes. induction descr as [|x descr IH]; intros l nodes; simpl.
  - by intros [= <-].
  - destruct (child h l x) as [c|]; simpl; [|done].
    destruct (resolve h c descr) as [nodes'|] eqn:Hr; simpl; [|done].
    intros [= <-]. rewrite leaf_cons. by apply IH.
Qed.

Lemma ancestor_walk_unresolved h l descr :
  resolve h l descr = None →
  if fails_at_inherited h l descr
  then ancestor_walk h l descr = Throw TypeError ∨
       ∃ key, inherited key = true ∧ ancestor_walk h l descr = Return (Inherited key)
  else ancestor_walk h l descr = Throw UnknownSubstate.
Proof.
  revert l. induction descr as [|x descr IH]; intros l; simpl; [done|].
  destruct (child h l x) as [c|]; simpl.
  - destruct (resolve h c descr) eqn:Hr; simpl; [done|]. intros _. by apply IH.
  - intros _. destruct (inherited (to_key x)) eqn:Hx; [|done].
    destruct descr; eauto.
Qed.

Lemma resolve_app h l d1 d2 :
  resolve h l (d1 ++ d2)
  = nodes1 ← resolve h l d1;
    nodes2 ← resolve h (leaf l nodes1) d2;
    Some (nodes1 ++ nodes2).
Proof.
  revert l. induction d1 as [|x d1 IH]; intros l; simpl.
  - unfold leaf. simpl. by destruct (resolve h l d2).
  - destruct (child h l x) as [c|]; simpl; [|done]. rewrite IH.
    destruct (resolve h c d1) as [nodes1|]; simpl; [|done].
    rewrite leaf_cons. by destruct (resolve h (leaf c nodes1) d2).
Qed.

Lemma default_chain_det h l chain1 chain2 :
  default_chain h l chain1 → default_chain h l chain2 → chain1 = chain2.
Proof.
  intros H1. revert chain2. induction H1 as [l Hn|l c chain Hc _ IH];
    intros chain2 H2; inversion H2; subst; try congruence.
  assert (c = c0) as <- by congruence. f_equal. by apply IH.
Qed.

Lemma Forall_touched (P : loc → Prop) k forceAll nodes :
  Forall P nodes → Forall P (touched k forceAll nodes).
Proof. unfold touched. destruct forceAll; [done|]. apply Forall_drop. Qed.

(** The [pop] loop calls [exit] on the collected states, last first. *)
Lemma exit_all_run fuel exitStates m log :
  length exitStates ≤ fuel →
  Forall (λ l, is_Some (heap m !! l)) exitStates →
  exit_all fuel (Obj <$> exitStates) (m, log)
  = ((m, log ++ (Exit <$> rev exitStates)), Return tt).
Proof.
  revert exitStates log. induction fuel as [|fuel IH]; intros exitStates log Hlen Hall.
  - destruct exitStates; simpl in *; [|lia]. by rewrite app_nil_r.
  - destruct exitStates as [|x exitStates _] using rev_ind.
    { simpl. by rewrite app_nil_r. }
    rewrite fmap_app. simpl exit_all. rewrite last_snoc, removelast_last.
    apply Forall_app in Hall as [Hall Hx]. apply Forall_singleton in Hx as [st Hst].
    simpl call. rewrite bind_run, (call_exit_run x st) by done. simpl.
    rewrite IH; [|rewrite length_app in Hlen; simpl in Hlen; lia|done].
    rewrite rev_unit. simpl. by rewrite <-(assoc_L (++)).
Qed.

(** ** Walks and default substates in a well-formed store *)

Section well_formed_store.
Context (h : list State) (Hwf : wf_heap h).

Lemma wf_heap_child l name c :
  child h l name = Some c →
  l < c ∧ ∃ cst, h !! c = Some cst ∧ to_key (_name cst) = to_key name.
Proof.
  unfold child. intros Hc.
  destruct (h !! l) as [st|] eqn:Hst; simpl in Hc; [|done]. eauto.
Qed.

Lemma resolve_is_Some l descr nodes :
  resolve h l descr = Some nodes →
  Forall (λ c, is_Some (h !! c)) nodes.
Proof.
  revert l nodes. induction descr as [|x descr IH]; intros l nodes; simpl.
  - by intros [= <-].
  - destruct (child h l x) as [c|] eqn:Hc; simpl; [|done].
    destruct (resolve h c descr) as [nodes'|] eqn:Hr; simpl; [|done].
    intros [= <-]. constructor; [|by eapply IH].
    destruct (wf_heap_child _ _ _ Hc) as [_ (cst & -> & _)]. eauto.
Qed.

Lemma leaf_is_Some l descr nodes :
  is_Some (h !! l) → resolve h l descr = Some nodes →
  is_Some (h !! leaf l nodes).
Proof.
  intros Hl Hr. unfold leaf.
  destruct (last nodes) as [c|] eqn:Hlast; simpl; [|done].
  pose proof (resolve_is_Some _ _ _ Hr) as Hall.
  rewrite Forall_forall in Hall. apply Hall.
  apply last_Some in Hlast as [nodes' ->]. set_solver.
Qed.

(** The exit walk of a path that resolves changes nothing and collects the
    touched states in path order. *)
Lemma exit_walk k forceAll descr :
  ∀ i l acc σ nodes, heap σ.1 = h → is_Some (h !! l) → (0 ≤ i)%Z →
    resolve h l descr = Some nodes →
    for_list i descr (exit_body k forceAll) (Obj l, acc) σ
    = (σ, Return (Obj (leaf l nodes),
                  acc ++ (Obj <$> touched (Z.to_nat (k - i)) forceAll nodes))).
Proof.
  induction descr as [|x descr IH]; intros i l acc σ nodes Hh [st Hst] Hi.
  - intros [= <-]. simpl. by rewrite touched_nil, app_nil_r.
  - simpl resolve. intros Hr.
    destruct (child h l x) as [c|] eqn:Hc; simpl in Hr; [|done].
    destruct (resolve h c descr) as [nodes'|] eqn:Hr'; simpl in Hr; [|done].
    injection Hr as <-.
    simpl for_list. rewrite bind_run. unfold exit_body at 1. simpl call.
    rewrite !bind_run.
    rewrite (getSubstate_run l x st) by (by rewrite Hh). rewrite Hh, Hc. simpl.
    destruct (wf_heap_child _ _ _ Hc) as [_ (cst & Hcst & _)].
    unfold mret, Eff_ret. rewrite (IH _ _ _ _ nodes') by (eauto; lia).
    rewrite leaf_cons, touched_cons. do 3 f_equal.
    destruct (bool_decide (k ≤ i)%Z || forceAll); [|done].
    by rewrite fmap_cons, <-(assoc_L (++)).
Qed.

(** The enter walk, when the states to enter start within the prefix of the
    path that resolves: it enters the touched states of that prefix in path
    order; at the first segment that does not resolve it throws
    [UnknownSubstate], or the [TypeError] of calling [enter] on the value of
    an inherited property. *)
Lemma enter_walk k forceAll descr :
  ∀ i l m log, heap m = h → is_Some (h !! l) → (0 ≤ i)%Z →
    forceAll = true ∨ Z.to_nat (k - i) ≤ length (resolve_prefix h l descr) →
    for_list i descr (enter_body k forceAll) (Obj l) (m, log)
    = ((m, log ++ (Enter <$> touched (Z.to_nat (k - i)) forceAll
                               (resolve_prefix h l descr))),
       match resolve h l descr with
       | Some nodes => Return (Obj (leaf l nodes))
       | None =>
           Throw (if fails_at_inherited h l descr then TypeError
                  else UnknownSubstate)
       end).
Proof.
  induction descr as [|x descr IH]; intros i l m log Hh [st Hst] Hi Hk.
  - simpl. by rewrite touched_nil, app_nil_r.
  - simpl for_list. rewrite bind_run. unfold enter_body at 1. simpl call.
    rewrite !bind_run.
    rewrite (getSubstate_run l x st) by (simpl; congruence). simpl fst. rewrite Hh.
    simpl resolve. simpl resolve_prefix. simpl fails_at_inherited.
    simpl resolve_prefix in Hk.
    destruct (child h l x) as [c|] eqn:Hc; simpl.
    2:{ rewrite touched_nil, app_nil_r.
        destruct (inherited (to_key x)); [|done]. simpl.
        assert (bool_decide (k ≤ i)%Z || forceAll = true) as ->; [|done].
        destruct Hk as [->|Hk]; [by rewrite orb_true_r|].
        simpl in Hk. rewrite bool_decide_true by lia. done. }
    destruct (wf_heap_child _ _ _ Hc) as [_ (cst & Hcst & _)].
    rewrite (touched_cons k forceAll i c).
    assert (forceAll = true ∨
            Z.to_nat (k - (i + 1)) ≤ length (resolve_prefix h c descr)) as Hk'.
    { destruct Hk as [?|Hk]; [by left|right]. simpl in Hk. lia. }
    destruct (bool_decide (k ≤ i)%Z || forceAll); rewrite bind_run; simpl call.
    + rewrite (call_enter_run c cst) by (simpl; congruence).
      unfold mret, Eff_ret. simpl. rewrite IH by (eauto; lia).
      rewrite <-(assoc_L (++)). simpl.
      destruct (resolve h c descr) as [nodes|]; simpl; [|done].
      by rewrite leaf_cons.
    + unfold mret, Eff_ret. simpl. rewrite IH by (eauto; lia).
      destruct (resolve h c descr) as [nodes|]; simpl; [|done].
      by rewrite leaf_cons.
Qed.

(** The loop of [registerState] over the ancestors changes nothing. *)
Lemma register_walk descr :
  ∀ i l σ, heap σ.1 = h → is_Some (h !! l) →
    for_list i descr
      (λ _ x parentState, call parentState (λ this, getSubstate this x)) (Obj l) σ
    = (σ, ancestor_walk h l descr).
Proof.
  induction descr as [|x descr IH]; intros i l σ Hh [st Hst]; [done|].
  simpl for_list. rewrite bind_run. simpl call.
  rewrite (getSubstate_run l x st) by congruence. rewrite Hh. simpl ancestor_walk.
  destruct (child h l x) as [c|] eqn:Hc; simpl.
  - destruct (wf_heap_child _ _ _ Hc) as [_ (cst & Hcst & _)].
    by rewrite IH by eauto.
  - destruct (inherited (to_key x)); [|done].
    destruct descr as [|y descr]; [done|]. simpl for_list. by rewrite bind_run.
Qed.

Lemma default_child_wf l c :
  default_child h l = Some c →
  l < c ∧ ∃ cst, h !! c = Some cst ∧ child h l (_name cst) = Some c.
Proof.
  unfold default_child, child. intros Hd.
  destruct (h !! l) as [st|] eqn:Hst; simpl in *; [|done].
  destruct (_context st) as [ctx|]; simpl in *; [|done].
  destruct (defaultSubstate ctx) as [name|]; simpl in *; [|done].
  destruct (negb _); [|done].
  destruct (Hwf _ _ _ _ Hst Hd) as [Hlt (cst & Hcst & Hkey)].
  split; [done|]. exists cst. split; [done|]. by rewrite Hkey.
Qed.

(** Below every state there is a chain of default substates, and it is
    shorter than the store is long: a default substate is a substate. *)
Lemma default_chain_exists l :
  ∃ chain, default_chain h l chain ∧ length chain ≤ length h - S l.
Proof.
  remember (length h - l) as n eqn:Hn.
  revert l Hn. induction (lt_wf n) as [n _ IH]; intros l ->.
  destruct (default_child h l) as [c|] eqn:Hd.
  - destruct (default_child_wf _ _ Hd) as [Hlt (cst & Hcst & _)].
    apply lookup_lt_Some in Hcst.
    destruct (IH (length h - c) ltac:(lia) c eq_refl) as (chain & Hchain & Hlen).
    exists (c :: chain). split; [by constructor|]. simpl. lia.
  - exists []. split; [by constructor|]. simpl. lia.
Qed.

(** The names of a chain of default substates are a path to walk it. *)
Lemma default_chain_resolve l chain :
  default_chain h l chain →
  resolve h l (name_of h <$> chain) = Some chain.
Proof.
  intros Hchain. induction Hchain as [l Hn|l c chain Hc _ IH]; [done|].
  destruct (default_child_wf _ _ Hc) as [_ (cst & Hcst & Hchild)].
  rewrite fmap_cons. simpl resolve.
  replace (name_of h c) with (_name cst) by (unfold name_of; by rewrite Hcst).
  rewrite Hchild. simpl. by rewrite IH.
Qed.

(** One round of the loop at a state with a default substate: the substate is
    entered and its name appended to the current path. *)
Lemma enter_defaults_step fuel l c m log :
  heap m = h → is_Some (h !! l) → default_child h l = Some c →
  enter_defaults (S fuel) (Obj l) (m, log)
  = enter_defaults fuel (Obj c)
      (with_currentStateDescr m (_currentStateDescr m ++ [name_of h c]),
       log ++ [Enter c]).
Proof.
  intros Hh [st Hst] Hc. simpl enter_defaults.
  destruct (getDefaultSubstate_run l st (m, log)) as (d & Hrun & Hd);
    [simpl; congruence|].
  simpl in Hd. rewrite Hh, Hc in Hd. subst d.
  rewrite bind_run, Hrun. simpl.
  destruct (default_child_wf _ _ Hc) as [_ (cst & Hcst & _)].
  rewrite bind_run, (call_enter_run c cst) by (simpl; congruence).
  rewrite bind_run, (getName_run c cst) by (simpl; congruence).
  unfold name_of. by rewrite Hcst.
Qed.

(** The round at a state without a default substate is the last one: the
    loop ends, or [enter] is called on the value of an inherited property. *)
Lemma enter_defaults_stop fuel l m log :
  heap m = h → is_Some (h !! l) → default_child h l = None →
  enter_defaults (S fuel) (Obj l) (m, log) = ((m, log), cascade_completion h l).
Proof.
  intros Hh [st Hst] Hn. simpl enter_defaults.
  destruct (getDefaultSubstate_run l st (m, log)) as (d & Hrun & Hd);
    [simpl; congruence|].
  simpl in Hd. rewrite Hh, Hn in Hd. unfold cascade_completion.
  rewrite bind_run, Hrun. simpl.
  destruct (default_inherited h l); [|by subst d].
  destruct Hd as [key ->]. by rewrite bind_run.
Qed.

(** With fuel for one round more than the chain is long, the loop enters the
    chain in order, appends the names to the current path and stops. *)
Lemma enter_defaults_run l chain :
  default_chain h l chain →
  ∀ fuel m log, heap m = h → is_Some (h !! l) → length chain < fuel →
    enter_defaults fuel (Obj l) (m, log)
    = ((with_currentStateDescr m (_currentStateDescr m ++ (name_of h <$> chain)),
        log ++ (Enter <$> chain)), cascade_completion h (leaf l chain)).
Proof.
  intros Hchain. induction Hchain as [l Hn|l c chain Hc _ IH];
    intros fuel m log Hh Hl Hfuel;
    (destruct fuel as [|fuel]; [simpl in Hfuel; lia|]).
  - rewrite enter_defaults_stop by done. simpl. rewrite !app_nil_r.
    by destruct m.
  - rewrite (enter_defaults_step _ _ c) by done.
    destruct (default_child_wf _ _ Hc) as [_ (cst & Hcst & _)].
    rewrite IH by (simpl in *; eauto with lia). rewrite leaf_cons.
    unfold with_currentStateDescr. simpl. by rewrite <-!(assoc_L (++)).
Qed.

(** Without fuel for the whole chain the loop does not complete. *)
Lemma enter_defaults_out_of_fuel l chain :
  default_chain h l chain →
  ∀ fuel m log, heap m = h → is_Some (h !! l) → fuel ≤ length chain →
    (enter_defaults fuel (Obj l) (m, log)).2 = OutOfFuel.
Proof.
  intros Hchain. induction Hchain as [l Hn|l c chain Hc _ IH];
    intros fuel m log Hh Hl Hfuel.
  - simpl in Hfuel. by replace fuel with 0 by lia.
  - destruct fuel as [|fuel]; [done|].
    rewrite (enter_defaults_step _ _ c) by done.
    destruct (default_child_wf _ _ Hc) as [_ (cst & Hcst & _)].
    apply IH; simpl in *; eauto with lia.
Qed.

End well_formed_store.

(** ** The transition *)

(** What [changeState] does on a manager that satisfies the invariant: the
    exits, the enters, and then the loop over the default substates. *)
Lemma changeState_run m fuel newStateStr forceAll curNodes :
  wf m →
  resolve (heap m) (_worldState m) (_currentStateDescr m) = Some curNodes →
  let new := stateDescrFromStateStr newStateStr in
  let k := common_prefix_length (_currentStateDescr m) new in
  run (changeState fuel newStateStr forceAll) m
  = match resolve (heap m) (_worldState m) new with
    | Some newNodes =>
        enter_defaults fuel (Obj (leaf (_worldState m) newNodes))
          (mkStateManager (heap m) (_worldState m) new,
           (Exit <$> rev (touched k forceAll curNodes))
           ++ (Enter <$> touched k forceAll newNodes))
    | None =>
        (m, (Exit <$> rev (touched k forceAll curNodes))
            ++ (Enter <$> touched k forceAll
                            (resolve_prefix (heap m) (_worldState m) new)),
         Throw (if fails_at_inherited (heap m) (_worldState m) new
                then TypeError else UnknownSubstate))
    end.
Proof.
  intros (Hworld & Hwf & _) Hcur new k. unfold run, changeState.
  fold new. rewrite bind_run. simpl. rewrite bind_run. simpl.
  rewrite computeChangeLevel_common_prefix. fold k.
  rewrite bind_run.
  pose proof (for_each_for_list (exit_body (Z.of_nat k) forceAll)
                (_currentStateDescr m) [] []) as Hloop.
  simpl in Hloop. rewrite app_nil_r in Hloop. unfold exit_body in Hloop at 1.
  rewrite Hloop. clear Hloop.
  rewrite (exit_walk (heap m) Hwf _ _ _ _ _ _ _ curNodes) by (done || lia). simpl.
  rewrite Z.sub_0_r, Nat2Z.id, length_fmap.
  rewrite bind_run, exit_all_run
    by (done || eapply Forall_touched, resolve_is_Some; eauto).
  rewrite bind_run.
  pose proof (for_each_for_list (enter_body (Z.of_nat k) forceAll) new [] []) as Hloop.
  simpl in Hloop. rewrite app_nil_r in Hloop. unfold enter_body in Hloop at 1.
  rewrite Hloop. clear Hloop.
  rewrite (enter_walk (heap m) Hwf)
    by (done || lia || (right; rewrite Z.sub_0_r, Nat2Z.id;
                        by eapply common_prefix_resolves)).
  rewrite Z.sub_0_r, Nat2Z.id. simpl.
  destruct (resolve (heap m) (_worldState m) new) as [newNodes|] eqn:Hnew; [|done].
  rewrite (resolve_prefix_resolve _ _ _ _ Hnew). done.
Qed.

(** ** Registration *)

Lemma addSubstate_run this substate st sub m log :
  heap m !! this = Some st → heap m !! substate = Some sub →
  addSubstate this substate (m, log)
  = if js_in (to_key (_name sub)) (_substates st)
    then ((m, log), Throw SubstateAlreadyExists)
    else ((with_heap m (<[this := add_key st (to_key (_name sub)) substate]> (heap m)),
           log), Return tt).
Proof.
  intros Hst Hsub. unfold addSubstate.
  rewrite bind_run, (deref_Some substate sub) by done.
  rewrite bind_run, (deref_Some this st) by done.
  by destruct (js_in _ _).
Qed.

Lemma ancestors_length descr :
  arr_length (ancestors descr) = Z.max 0 (arr_length descr - 1).
Proof. unfold arr_length, ancestors. rewrite length_take. lia. Qed.

(** What [registerState] does on a manager that satisfies the invariant.
    The new state is allocated once the loop over the ancestors is through,
    also when [addSubstate] then refuses it or cannot be called. *)
Lemma registerState_run m stateStr context :
  wf m →
  let stateDescr := stateDescrFromStateStr stateStr in
  let name := last_segment stateDescr in
  let h1 := heap m ++ [new_State name context] in
  run (registerState stateStr context) m
  = match resolve (heap m) (_worldState m) (ancestors stateDescr) with
    | None =>
        match ancestor_walk (heap m) (_worldState m) (ancestors stateDescr) with
        | Return _ => (with_heap m h1, [], Throw TypeError)
        | Throw e => (m, [], Throw e)
        | OutOfFuel => (m, [], OutOfFuel)
        end
    | Some nodes =>
        let parentState := leaf (_worldState m) nodes in
        match heap m !! parentState with
        | Some st =>
            if js_in (to_key name) (_substates st)
            then (with_heap m h1, [], Throw SubstateAlreadyExists)
            else (with_heap m
                    (<[parentState := add_key st (to_key name) (length (heap m))]> h1),
                  [], Return tt)
        | None => (with_heap m h1, [], Throw DanglingReference)
        end
    end.
Proof.
  intros (Hworld & Hwf & _) stateDescr name h1. unfold run, registerState.
  fold stateDescr. rewrite bind_run. simpl. rewrite bind_run.
  pose proof (for_each_for_list
                (λ _ x parentState, call parentState (λ this, getSubstate this x))
                (ancestors stateDescr) []
                (drop (length stateDescr - 1) stateDescr)) as Hloop.
  simpl in Hloop. unfold ancestors in Hloop at 2. rewrite take_drop in Hloop.
  assert (seqZ 0 (arr_length stateDescr - 1) = seqZ 0 (arr_length (ancestors stateDescr)))
    as ->.
  { rewrite ancestors_length. destruct (decide (arr_length stateDescr - 1 < 0)%Z).
    - rewrite !seqZ_nil by lia. done.
    - f_equal. lia. }
  rewrite Hloop. clear Hloop.
  rewrite (register_walk (heap m) Hwf) by done.
  destruct (resolve (heap m) (_worldState m) (ancestors stateDescr)) as [nodes|] eqn:Hr.
  - rewrite (ancestor_walk_resolve _ _ _ _ Hr).
    pose proof (leaf_is_Some _ Hwf _ _ _ Hworld Hr) as [st Hst].
    rewrite Hst. rewrite bind_run. unfold alloc. simpl.
    fold (last_segment stateDescr). fold name. fold h1.
    rewrite (addSubstate_run _ _ st (new_State name context)); simpl.
    + done.
    + unfold h1. by apply lookup_app_l_Some.
    + unfold h1. rewrite lookup_app_r by done. by rewrite Nat.sub_diag.
  - pose proof (ancestor_walk_unresolved _ _ _ Hr) as Hw.
    destruct (fails_at_inherited _ _ _).
    + destruct Hw as [->|(key & _ & ->)]; [by destruct m|].
      rewrite bind_run. unfold alloc. simpl. done.
    + rewrite Hw. by destruct m.
Qed.

(** ** The invariant *)

Lemma extends_refl h : extends h h.
Proof. by intros ???. Qed.

Lemma extends_trans h1 h2 h3 : extends h1 h2 → extends h2 h3 → extends h1 h3.
Proof. intros H12 H23 ????. eauto. Qed.

(** A path that can be walked stays so, through the same states. *)
Lemma extends_resolve h h' l descr nodes :
  extends h h' → resolve h l descr = Some nodes → resolve h' l descr = Some nodes.
Proof.
  intros Hext. revert l nodes. induction descr as [|x descr IH]; intros l nodes; simpl; [done|].
  destruct (child h l x) as [c|] eqn:Hc; simpl; [|done].
  rewrite (Hext _ _ _ Hc). simpl.
  destruct (resolve h c descr) as [nodes'|] eqn:Hr; simpl; [|done].
  by rewrite (IH _ _ Hr).
Qed.

Lemma extends_alloc h st : extends h (h ++ [st]).
Proof.
  intros l name c. unfold child.
  destruct (h !! l) as [st'|] eqn:Hl; simpl; [|done].
  by rewrite (lookup_app_l_Some _ _ _ _ Hl).
Qed.

Lemma extends_add_key h p pst key n :
  h !! p = Some pst → _substates pst !! key = None →
  extends h (<[p := add_key pst key n]> h).
Proof.
  intros Hp Hkey l name c. unfold child.
  destruct (h !! l) as [st|] eqn:Hl; simpl; [|done]. intros Hc.
  destruct (decide (l = p)) as [->|Hne].
  - rewrite list_lookup_insert_eq by (by eapply lookup_lt_Some). simpl.
    assert (st = pst) as -> by congruence.
    rewrite lookup_insert_ne; [done|]. intros Heq. rewrite Heq in Hkey. congruence.
  - rewrite list_lookup_insert_ne by done. by rewrite Hl.
Qed.

Lemma wf_heap_alloc h name context :
  wf_heap h → wf_heap (h ++ [new_State name context]).
Proof.
  intros Hwf l st key c Hl Hc.
  destruct (decide (l < length h)) as [Hlt|Hge].
  - rewrite lookup_app_l in Hl by done.
    destruct (Hwf _ _ _ _ Hl Hc) as [? (cst & Hcst & ?)].
    split; [done|]. exists cst. split; [|done]. by apply lookup_app_l_Some.
  - rewrite lookup_app_r in Hl by lia.
    destruct (l - length h) as [|i]; simpl in Hl; [|by destruct i].
    injection Hl as <-. simpl in Hc. by rewrite lookup_empty in Hc.
Qed.

Lemma wf_heap_add_key h p pst key n cst :
  wf_heap h → h !! p = Some pst → h !! n = Some cst →
  to_key (_name cst) = key → p < n →
  wf_heap (<[p := add_key pst key n]> h).
Proof.
  intros Hwf Hp Hn Hkey Hpn l st k c Hl Hc.
  assert (∀ c' cst', h !! c' = Some cst' →
    ∃ cst'', <[p := add_key pst key n]> h !! c' = Some cst'' ∧ _name cst'' = _name cst')
    as Hkeep.
  { intros c' cst' Hc'. destruct (decide (c' = p)) as [->|Hne].
    - rewrite list_lookup_insert_eq by (by eapply lookup_lt_Some).
      eexists. split; [done|]. simpl. congruence.
    - rewrite list_lookup_insert_ne by done. eauto. }
  destruct (decide (l = p)) as [->|Hne].
  - rewrite list_lookup_insert_eq in Hl by (by eapply lookup_lt_Some).
    injection Hl as <-. simpl in Hc.
    destruct (decide (k = key)) as [->|Hk].
    + rewrite lookup_insert_eq in Hc. injection Hc as <-. split; [done|].
      destruct (Hkeep _ _ Hn) as (cst'' & -> & Hname).
      exists cst''. split; [done|]. by rewrite Hname.
    + rewrite lookup_insert_ne in Hc by done.
      destruct (Hwf _ _ _ _ Hp Hc) as [? (cst' & Hcst' & ?)]. split; [done|].
      destruct (Hkeep _ _ Hcst') as (cst'' & -> & Hname).
      exists cst''. split; [done|]. by rewrite Hname.
  - rewrite list_lookup_insert_ne in Hl by done.
    destruct (Hwf _ _ _ _ Hl Hc) as [? (cst' & Hcst' & ?)]. split; [done|].
    destruct (Hkeep _ _ Hcst') as (cst'' & -> & Hname).
    exists cst''. split; [done|]. by rewrite Hname.
Qed.

Lemma wf_new_StateManager : wf new_StateManager.
Proof.
  split_and!; [by eexists| |by eexists].
  intros [|[|l]] st key c Hl Hc; simpl in *; try done.
  injection Hl as <-. simpl in Hc. by rewrite lookup_empty in Hc.
Qed.

(** [registerState] keeps the invariant, the world state and the current
    path, and only adds to the tree, however it completes. *)
Lemma registerState_wf m stateStr context m' log r :
  wf m → run (registerState stateStr context) m = (m', log, r) →
  wf m' ∧ extends (heap m) (heap m') ∧
  _worldState m' = _worldState m ∧ _currentStateDescr m' = _currentStateDescr m.
Proof.
  intros Hm Hrun. pose proof Hm as (Hworld & Hwf & Hcur).
  rewrite (registerState_run m stateStr context Hm) in Hrun. cbv zeta in Hrun.
  set (name := last_segment (stateDescrFromStateStr stateStr)) in *.
  set (new := new_State name context) in *.
  pose proof (wf_heap_alloc _ name context Hwf) as Hwf1. fold new in Hwf1.
  pose proof (extends_alloc (heap m) new) as Hext1.
  assert (wf (with_heap m (heap m ++ [new]))) as Hm1.
  { unfold wf. simpl. split_and!; [|done|].
    + destruct Hworld as [w Hw]. exists w. by apply lookup_app_l_Some.
    + destruct Hcur as [cur Hcur]. exists cur. by eapply extends_resolve. }
  destruct (resolve (heap m) (_worldState m) _) as [nodes|] eqn:Hr.
  2:{ destruct (ancestor_walk _ _ _); injection Hrun as <- <- <-;
        by (split_and!; [done|apply extends_refl|done..]) || (split_and!; done). }
  pose proof (leaf_is_Some _ Hwf _ _ _ Hworld Hr) as [st Hst].
  rewrite Hst in Hrun.
  destruct (js_in (to_key name) (_substates st)) eqn:Hdup;
    injection Hrun as <- <- <-; simpl.
  - by split_and!.
  - apply js_in_false in Hdup as [Hnone _].
    assert ((heap m ++ [new]) !! leaf (_worldState m) nodes = Some st) as Hst1
      by (by apply lookup_app_l_Some).
    assert ((heap m ++ [new]) !! length (heap m) = Some new) as Hnew
      by (rewrite lookup_app_r by done; by rewrite Nat.sub_diag).
    pose proof (extends_add_key _ _ _ _ (length (heap m)) Hst1 Hnone) as Hext2.
    pose proof (extends_trans _ _ _ Hext1 Hext2) as Hext.
    split_and!; [|done..]. unfold wf. simpl. split_and!.
    + destruct Hworld as [w Hw].
      destruct (decide (_worldState m = leaf (_worldState m) nodes)) as [Heq|Hne].
      * rewrite <-Heq. rewrite list_lookup_insert_eq; [by eexists|].
        rewrite length_app. apply lookup_lt_Some in Hw. lia.
      * rewrite list_lookup_insert_ne by done. exists w. by apply lookup_app_l_Some.
    + eapply wf_heap_add_key; eauto. by eapply lookup_lt_Some.
    + destruct Hcur as [cur Hcur]. exists cur. by eapply extends_resolve.
Qed.

(** A transition to a path that resolves, with fuel for the chain of default
    substates below its last state: the current path is the target followed
    by the names of the chain, also when the loop over the default substates
    ends with a [TypeError]. *)
Lemma changeState_resolved m fuel newStateStr forceAll curNodes newNodes chain :
  wf m →
  let new := stateDescrFromStateStr newStateStr in
  let k := common_prefix_length (_currentStateDescr m) new in
  resolve (heap m) (_worldState m) (_currentStateDescr m) = Some curNodes →
  resolve (heap m) (_worldState m) new = Some newNodes →
  default_chain (heap m) (leaf (_worldState m) newNodes) chain →
  length chain < fuel →
  run (changeState fuel newStateStr forceAll) m
  = (with_currentStateDescr m (new ++ (name_of (heap m) <$> chain)),
     (Exit <$> rev (touched k forceAll curNodes))
     ++ (Enter <$> touched k forceAll newNodes)
     ++ (Enter <$> chain),
     cascade_completion (heap m) (leaf (leaf (_worldState m) newNodes) chain)).
Proof.
  intros Hm new k Hcur Hnew Hchain Hfuel. pose proof Hm as (Hworld & Hwf & _).
  rewrite (changeState_run _ _ _ _ _ Hm Hcur). fold new. rewrite Hnew.
  rewrite (enter_defaults_run (heap m) Hwf _ chain); try done.
  - by rewrite <-(assoc_L (++)).
  - by eapply leaf_is_Some.
Qed.

(** A transition to a path that does not resolve. *)
Lemma changeState_unresolved m fuel newStateStr forceAll curNodes :
  wf m →
  let new := stateDescrFromStateStr newStateStr in
  let k := common_prefix_length (_currentStateDescr m) new in
  resolve (heap m) (_worldState m) (_currentStateDescr m) = Some curNodes →
  resolve (heap m) (_worldState m) new = None →
  run (changeState fuel newStateStr forceAll) m
  = (m,
     (Exit <$> rev (touched k forceAll curNodes))
     ++ (Enter <$> touched k forceAll (resolve_prefix (heap m) (_worldState m) new)),
     Throw (if fails_at_inherited (heap m) (_worldState m) new
            then TypeError else UnknownSubstate)).
Proof.
  intros Hm new k Hcur Hnew.
  rewrite (changeState_run _ _ _ _ _ Hm Hcur). fold new. by rewrite Hnew.
Qed.

(** [changeState] keeps the invariant and the store when it completes. *)
Lemma changeState_wf m fuel newStateStr forceAll m' log r :
  wf m → run (changeState fuel newStateStr forceAll) m = (m', log, r) →
  r ≠ OutOfFuel →
  wf m' ∧ heap m' = heap m ∧ _worldState m' = _worldState m.
Proof.
  intros Hm Hrun Hr. pose proof Hm as (Hworld & Hwf & [curNodes Hcur]).
  destruct (resolve (heap m) (_worldState m) (stateDescrFromStateStr newStateStr))
    as [newNodes|] eqn:Hnew.
  - pose proof (leaf_is_Some _ Hwf _ _ _ Hworld Hnew) as Hleaf.
    destruct (default_chain_exists (heap m) Hwf (leaf (_worldState m) newNodes))
      as (chain & Hchain & _).
    destruct (decide (length chain < fuel)) as [Hfuel|Hfuel].
    + rewrite (changeState_resolved _ _ _ _ _ _ _ Hm Hcur Hnew Hchain Hfuel) in Hrun.
      injection Hrun as <- <- <-. split_and!; [|done..].
      unfold wf. simpl. split_and!; [done..|].
      rewrite resolve_app, Hnew. simpl.
      rewrite (default_chain_resolve _ Hwf _ _ Hchain). by eexists.
    + rewrite (changeState_run _ _ _ _ _ Hm Hcur), Hnew in Hrun.
      pose proof (enter_defaults_out_of_fuel _ Hwf _ _ Hchain fuel
        (mkStateManager (heap m) (_worldState m) (stateDescrFromStateStr newStateStr))
        ((Exit <$> rev (touched (common_prefix_length (_currentStateDescr m)
             (stateDescrFromStateStr newStateStr)) forceAll curNodes))
         ++ (Enter <$> touched (common_prefix_length (_currentStateDescr m)
             (stateDescrFromStateStr newStateStr)) forceAll newNodes))
        eq_refl Hleaf ltac:(lia)) as Hout.
      rewrite Hrun in Hout. simpl in Hout. congruence.
  - rewrite (changeState_unresolved _ _ _ _ _ Hm Hcur Hnew) in Hrun.
    by injection Hrun as <- <- <-.
Qed.

(** Every manager a program builds satisfies the invariant. *)
Lemma reachable_wf m : reachable m → wf m.
Proof.
  induction 1 as [|m stateStr context m' log r _ IH Hrun
                  |m fuel newStateStr forceAll m' log r _ IH Hrun Hr].
  - apply wf_new_StateManager.
  - by destruct (registerState_wf _ _ _ _ _ _ IH Hrun).
  - by destruct (changeState_wf _ _ _ _ _ _ _ IH Hrun Hr).
Qed.

(** ** The ways a transition can go *)

(** The ways a transition on a manager that satisfies the invariant can go:
    it throws when the target does not resolve, and otherwise runs to the
    end of the chain of default substates as soon as the fuel exceeds its
    length. *)
Lemma changeState_cases m fuel newStateStr forceAll :
  wf m →
  let new := stateDescrFromStateStr newStateStr in
  let k := common_prefix_length (_currentStateDescr m) new in
  ∃ curNodes,
    resolve (heap m) (_worldState m) (_currentStateDescr m) = Some curNodes ∧
    match resolve (heap m) (_worldState m) new with
    | None =>
        run (changeState fuel newStateStr forceAll) m
        = (m,
           (Exit <$> rev (touched k forceAll curNodes))
           ++ (Enter <$> touched k forceAll
                           (resolve_prefix (heap m) (_worldState m) new)),
           Throw (if fails_at_inherited (heap m) (_worldState m) new
                  then TypeError else UnknownSubstate))
    | Some newNodes =>
        ∃ chain,
          default_chain (heap m) (leaf (_worldState m) newNodes) chain ∧
          length chain < length (heap m) ∧
          if decide (length chain < fuel) then
            run (changeState fuel newStateStr forceAll) m
            = (with_currentStateDescr m (new ++ (name_of (heap m) <$> chain)),
               (Exit <$> rev (touched k forceAll curNodes))
               ++ (Enter <$> touched k forceAll newNodes)
               ++ (Enter <$> chain),
               cascade_completion (heap m) (leaf (leaf (_worldState m) newNodes) chain))
          else
            completion_of (changeState fuel newStateStr forceAll) m = OutOfFuel
    end.
Proof.
  intros Hm new k. pose proof Hm as (Hworld & Hwf & [curNodes Hcur]).
  exists curNodes. split; [done|].
  destruct (resolve (heap m) (_worldState m) new) as [newNodes|] eqn:Hnew.
  - pose proof (leaf_is_Some _ Hwf _ _ _ Hworld Hnew) as Hleaf.
    destruct (default_chain_exists (heap m) Hwf (leaf (_worldState m) newNodes))
      as (chain & Hchain & Hlen).
    exists chain. split; [done|]. split.
    { destruct Hleaf as [? Hleaf]. apply lookup_lt_Some in Hleaf. lia. }
    case_decide as Hfuel.
    + by apply changeState_resolved.
    + unfold completion_of. rewrite (changeState_run _ _ _ _ _ Hm Hcur).
      fold new. rewrite Hnew.
      by apply (enter_defaults_out_of_fuel (heap m) Hwf _ chain); [..|lia].
  - by apply changeState_unresolved.
Qed.

Lemma cascade_completion_completes h l : cascade_completion h l ≠ OutOfFuel.
Proof. unfold cascade_completion. by destruct (default_inherited h l). Qed.

(** The result of a transition does not depend on the fuel once there is as
    much of it as there are objects in the store. *)
Lemma changeState_fuel m newStateStr forceAll fuel :
  wf m → length (heap m) ≤ fuel →
  run (changeState fuel newStateStr forceAll) m
  = run (changeState (length (heap m)) newStateStr forceAll) m ∧
  completion_of (changeState fuel newStateStr forceAll) m ≠ OutOfFuel.
Proof.
  intros Hm Hfuel.
  destruct (changeState_cases m fuel newStateStr forceAll Hm) as (curNodes & Hcur & H1).
  destruct (changeState_cases m (length (heap m)) newStateStr forceAll Hm)
    as (curNodes' & Hcur' & H2).
  assert (curNodes' = curNodes) as -> by congruence. cbv zeta in H1, H2.
  destruct (resolve (heap m) (_worldState m) (stateDescrFromStateStr newStateStr))
    as [newNodes|].
  - destruct H1 as (chain & Hchain & Hlen & H1).
    destruct H2 as (chain' & Hchain' & _ & H2).
    assert (chain' = chain) as -> by (by eapply default_chain_det).
    rewrite decide_True in H1 by lia. rewrite decide_True in H2 by lia.
    unfold completion_of. rewrite H1, H2. split; [done|]. simpl.
    apply cascade_completion_completes.
  - unfold completion_of. rewrite H1, H2. split; [done|]. simpl.
    by destruct (fails_at_inherited _ _ _).
Qed.

Lemma exits_before_enters (exits enters : list loc) i j l l' :
  ((Exit <$> exits) ++ (Enter <$> enters)) !! i = Some (Exit l) →
  ((Exit <$> exits) ++ (Enter <$> enters)) !! j = Some (Enter l') →
  i < j.
Proof.
  intros Hi Hj.
  destruct (decide (i < length exits)) as [Hlt|Hge].
  - destruct (decide (j < length exits)) as [Hjlt|]; [|lia].
    rewrite lookup_app_l in Hj by (by rewrite length_fmap).
    rewrite list_lookup_fmap in Hj. by destruct (exits !! j).
  - rewrite lookup_app_r in Hi by (rewrite length_fmap; lia).
    rewrite list_lookup_fmap in Hi. by destruct (enters !! _).
Qed.

(** ** The links of the tree after a registration *)

Lemma child_alloc h name context l x :
  child (h ++ [new_State name context]) l x = child h l x.
Proof.
  unfold child. destruct (decide (l < length h)).
  - by rewrite lookup_app_l.
  - rewrite lookup_app_r by lia. rewrite (lookup_ge_None_2 h l) by lia.
    destruct (l - length h) as [|i]; simpl; [by rewrite lookup_empty|by destruct i].
Qed.

(** The links of the store after a state was allocated and added to [p]. *)
Lemma child_add_key_alloc h p st key new l name :
  h !! p = Some st →
  child (<[p := add_key st key (length h)]> (h ++ [new])) l name
  = if decide (l = p ∧ to_key name = key) then Some (length h)
    else if decide (l = length h) then _substates new !! to_key name
    else child h l name.
Proof.
  intros Hp. pose proof (lookup_lt_Some _ _ _ Hp) as Hlt. unfold child.
  destruct (decide (l = p)) as [->|Hne].
  - rewrite list_lookup_insert_eq by (rewrite length_app; lia). simpl.
    rewrite Hp. simpl. destruct (decide (to_key name = key)) as [<-|Hk].
    + rewrite decide_True by done. by rewrite lookup_insert_eq.
    + rewrite decide_False by tauto. rewrite decide_False by lia.
      by rewrite lookup_insert_ne.
  - rewrite decide_False by tauto. rewrite list_lookup_insert_ne by done.
    case_decide as Hl.
    + subst l. rewrite lookup_app_r by done. by rewrite Nat.sub_diag.
    + destruct (decide (l < length h)).
      * by rewrite lookup_app_l.
      * rewrite lookup_app_r by lia.
        rewrite (lookup_ge_None_2 h l) by lia.
        destruct (l - length h) as [|i] eqn:?; [lia|]. by destruct i.
Qed.

(** The links of the store after a new state was allocated and added to [p]
    under [key]: the one new link, and those there were. *)
Lemma child_register h p st key name context l x :
  h !! p = Some st →
  child (<[p := add_key st key (length h)]> (h ++ [new_State name context])) l x
  = if decide (l = p ∧ to_key x = key) then Some (length h) else child h l x.
Proof.
  intros Hp. rewrite (child_add_key_alloc _ _ _ _ _ _ _ Hp).
  case_decide; [done|]. case_decide; [|done].
  subst l. simpl. rewrite lookup_empty. unfold child.
  by rewrite (lookup_ge_None_2 h).
Qed.

(** ** What [registerState] leaves alone *)

Lemma keeps_path_ret {A} (a : A) : keeps_path (mret a).
Proof. by intros σ. Qed.

Lemma keeps_path_throw {A} e : keeps_path (@throw A e).
Proof. by intros σ. Qed.

Lemma keeps_path_bind {A B} (c : Eff A) (f : A → Eff B) :
  keeps_path c → (∀ a, keeps_path (f a)) → keeps_path (c ≫= f).
Proof.
  intros Hc Hf σ. rewrite bind_run. specialize (Hc σ).
  destruct (c σ) as [σ' [a| |]]; simpl in *; try done.
  destruct (Hf a σ') as (-> & -> & ->). done.
Qed.

Lemma keeps_path_deref l : keeps_path (deref l).
Proof. intros σ. unfold deref. by destruct (heap σ.1 !! l). Qed.

Lemma keeps_path_store l st : keeps_path (store l st).
Proof. by intros σ. Qed.

Lemma keeps_path_alloc st : keeps_path (alloc st).
Proof. by intros σ. Qed.

Lemma keeps_path_get_worldState : keeps_path get_worldState.
Proof. by intros σ. Qed.

Lemma keeps_path_getSubstate this name : keeps_path (getSubstate this name).
Proof.
  apply keeps_path_bind; [apply keeps_path_deref|]. intros st.
  destruct (js_in _ _); [apply keeps_path_ret|apply keeps_path_throw].
Qed.

Lemma keeps_path_call {A} state (method : loc → Eff A) :
  (∀ this, keeps_path (method this)) → keeps_path (call state method).
Proof. intros Hm. destruct state; [apply Hm|apply keeps_path_throw]. Qed.

Lemma keeps_path_addSubstate this substate : keeps_path (addSubstate this substate).
Proof.
  apply keeps_path_bind; [apply keeps_path_deref|]. intros sub.
  apply keeps_path_bind; [apply keeps_path_deref|]. intros st.
  destruct (js_in _ _); [apply keeps_path_throw|apply keeps_path_store].
Qed.

Lemma keeps_path_for_each {S} idxs (body : Z → S → Eff S) s :
  (∀ i s, keeps_path (body i s)) → keeps_path (for_each idxs body s).
Proof.
  intros Hbody. revert s. induction idxs as [|i idxs IH]; intros s.
  - apply keeps_path_ret.
  - simpl. by apply keeps_path_bind.
Qed.

Lemma keeps_path_registerState stateStr context :
  keeps_path (registerState stateStr context).
Proof.
  apply keeps_path_bind; [apply keeps_path_get_worldState|]. intros world.
  apply keeps_path_bind.
  { apply keeps_path_for_each. intros i s. apply keeps_path_call.
    intros this. apply keeps_path_getSubstate. }
  intros parentState.
  apply keeps_path_bind; [apply keeps_path_alloc|]. intros substate.
  apply keeps_path_call. intros this. apply keeps_path_addSubstate.
Qed.

(** ** Example managers are reachable *)

Lemma reachable_after_registerState m stateStr context :
  reachable m → reachable (after (registerState stateStr context) m).
Proof.
  intros Hm. unfold after.
  destruct (run (registerState stateStr context) m) as [[m' log] r] eqn:Hrun.
  by eapply reachable_registerState.
Qed.

Lemma reachable_after_changeState m fuel newStateStr forceAll :
  reachable m →
  completion_of (changeState fuel newStateStr forceAll) m ≠ OutOfFuel →
  reachable (after (changeState fuel newStateStr forceAll) m).
Proof.
  intros Hm. unfold after, completion_of.
  destruct (run (changeState fuel newStateStr forceAll) m) as [[m' log] r] eqn:Hrun.
  intros Hr. by eapply reachable_changeState.
Qed.

Lemma reachable_registered paths : reachable (registered paths).
Proof.
  unfold registered. generalize reachable_new. generalize new_StateManager.
  induction paths as [|p paths IH]; intros m Hm; [done|].
  simpl. by apply IH, reachable_after_registerState.
Qed.

Lemma wf_registered paths : wf (registered paths).
Proof. apply reachable_wf, reachable_registered. Qed.

(** ** Parsing and joining paths *)

Lemma length_split c s : length (split c s) = S (count_char c s).
Proof.
  induction s as [|a s IH]; [done|]. simpl.
  pose proof (split_not_nil c s) as Hne.
  destruct (split c s) as [|p ps]; [done|].
  case_bool_decide; simpl in *; lia.
Qed.

Lemma split_pieces c s : Forall (λ p, count_char c p = 0) (split c s).
Proof.
  induction s as [|a s IH]; simpl.
  - by repeat constructor.
  - pose proof (split_not_nil c s) as Hne.
    destruct (split c s) as [|p ps]; [done|].
    apply Forall_cons in IH as [Hp Hps].
    case_bool_decide as Ha; constructor; try done.
    + by constructor.
    + simpl. by rewrite bool_decide_false.
Qed.

Lemma split_app c p rest :
  count_char c p = 0 → split c (p +:+ String c rest) = p :: split c rest.
Proof.
  induction p as [|a p IH]; simpl.
  - intros _. by rewrite bool_decide_true.
  - case_bool_decide; [done|]. simpl. intros Hp. by rewrite IH.
Qed.

Lemma split_piece c p : count_char c p = 0 → split c p = [p].
Proof.
  induction p as [|a p IH]; simpl; [done|].
  case_bool_decide; [done|]. simpl. intros Hp. by rewrite IH.
Qed.

Lemma split_join c pieces :
  pieces ≠ [] → Forall (λ p, count_char c p = 0) pieces →
  split c (join (String c EmptyString) (Str <$> pieces)) = pieces.
Proof.
  induction pieces as [|p pieces IH]; [done|]. intros _ Hall.
  apply Forall_cons in Hall as [Hp Hall].
  destruct pieces as [|q pieces].
  - simpl. by apply split_piece.
  - change (Str <$> p :: q :: pieces) with (Str p :: Str q :: (Str <$> pieces)).
    rewrite join_cons. change (Str q :: (Str <$> pieces)) with (Str <$> q :: pieces).
    simpl join_elem. change (String c "" +:+ ?s) with (String c s).
    rewrite split_app by done. by rewrite IH.
Qed.

Lemma stateDescrFromStateStr_segments s :
  Forall (λ v, ∃ p, v = Str p ∧ count_char "." p = 0) (stateDescrFromStateStr s).
Proof.
  unfold stateDescrFromStateStr. case_bool_decide; [done|].
  apply Forall_fmap. eapply Forall_impl; [apply split_pieces|].
  intros p Hp. by exists p.
Qed.

(** ** What [changeState] leaves alone *)

Lemma keeps_heap_ret {A} (a : A) : keeps_heap (mret a).
Proof. by intros σ. Qed.

Lemma keeps_heap_throw {A} e : keeps_heap (@throw A e).
Proof. by intros σ. Qed.

Lemma keeps_heap_bind {A B} (c : Eff A) (f : A → Eff B) :
  keeps_heap c → (∀ a, keeps_heap (f a)) → keeps_heap (c ≫= f).
Proof.
  intros Hc Hf σ. rewrite bind_run. specialize (Hc σ).
  destruct (c σ) as [σ' [a| |]]; simpl in *; try done.
  destruct (Hf a σ') as (-> & ->). done.
Qed.

Lemma keeps_heap_deref l : keeps_heap (deref l).
Proof. intros σ. unfold deref. by destruct (heap σ.1 !! l). Qed.

Lemma keeps_heap_getSubstate this name : keeps_heap (getSubstate this name).
Proof.
  apply keeps_heap_bind; [apply keeps_heap_deref|]. intros st.
  destruct (js_in _ _); [apply keeps_heap_ret|apply keeps_heap_throw].
Qed.

Lemma keeps_heap_call {A} state (method : loc → Eff A) :
  (∀ this, keeps_heap (method this)) → keeps_heap (call state method).
Proof. intros Hm. destruct state; [apply Hm|apply keeps_heap_throw]. Qed.

Lemma keeps_heap_getDefaultSubstate this : keeps_heap (getDefaultSubstate this).
Proof.
  apply keeps_heap_bind; [apply keeps_heap_deref|]. intros st. simpl.
  destruct (_ && _); apply keeps_heap_ret.
Qed.

Lemma keeps_heap_call_enter state : keeps_heap (call_enter state).
Proof. apply keeps_heap_bind; [apply keeps_heap_deref|]. by intros st σ. Qed.

Lemma keeps_heap_call_exit state : keeps_heap (call_exit state).
Proof. apply keeps_heap_bind; [apply keeps_heap_deref|]. by intros st σ. Qed.

Lemma keeps_heap_for_each {S} idxs (body : Z → S → Eff S) s :
  (∀ i s, keeps_heap (body i s)) → keeps_heap (for_each idxs body s).
Proof.
  intros Hbody. revert s. induction idxs as [|i idxs IH]; intros s.
  - apply keeps_heap_ret.
  - simpl. by apply keeps_heap_bind.
Qed.

Lemma keeps_heap_exit_all fuel exitStates : keeps_heap (exit_all fuel exitStates).
Proof.
  revert exitStates. induction fuel as [|fuel IH]; intros exitStates; simpl.
  - apply keeps_heap_ret.
  - destruct (last exitStates); [|apply keeps_heap_ret].
    apply keeps_heap_bind; [|intros _; apply IH].
    apply keeps_heap_call, keeps_heap_call_exit.
Qed.

Lemma keeps_heap_enter_defaults fuel state : keeps_heap (enter_defaults fuel state).
Proof.
  revert state. induction fuel as [|fuel IH]; intros state; simpl.
  - by intros σ.
  - apply keeps_heap_bind; [apply keeps_heap_call, keeps_heap_getDefaultSubstate|].
    intros [state'|]; [|apply keeps_heap_ret].
    apply keeps_heap_bind; [apply keeps_heap_call, keeps_heap_call_enter|]. intros _.
    apply keeps_heap_bind.
    { apply keeps_heap_call. intros this.
      apply keeps_heap_bind; [apply keeps_heap_deref|]. intros st.
      apply keeps_heap_ret. }
    intros name. apply keeps_heap_bind; [by intros σ|]. intros descr.
    apply keeps_heap_bind; [by intros σ|]. intros _. apply IH.
Qed.

(** ** The objects of the store *)

Lemma constructed_new_State name context : constructed (new_State name context).
Proof. done. Qed.

Lemma wf_objects_alloc m name context :
  wf_objects m → wf_objects (with_heap m (heap m ++ [new_State name context])).
Proof.
  intros [(world & Hworld & Hctx) Hall]. split; simpl.
  - exists world. split; [by apply lookup_app_l_Some|done].
  - apply Forall_app. split; [done|]. repeat constructor.
Qed.

Lemma wf_objects_add_key m p st key n :
  wf_objects m → heap m !! p = Some st →
  wf_objects (with_heap m (<[p := add_key st key n]> (heap m))).
Proof.
  intros [(world & Hworld & Hctx) Hall] Hp. split; simpl.
  - destruct (decide (_worldState m = p)) as [Heq|Hne].
    + exists (add_key st key n). rewrite Heq in *.
      rewrite list_lookup_insert_eq by (by eapply lookup_lt_Some).
      split; [done|]. simpl. congruence.
    + exists world. by rewrite list_lookup_insert_ne.
  - apply Forall_insert; [done|].
    rewrite Forall_forall in Hall. apply (Hall st).
    apply list_elem_of_lookup. eauto.
Qed.

(** Every manager a program builds has a world state without context and
    objects with the methods of their contexts. *)
Lemma reachable_wf_objects m : reachable m → wf_objects m.
Proof.
  induction 1 as [|m stateStr context m' log r Hreach IH Hrun
                  |m fuel newStateStr forceAll m' log r Hreach IH Hrun Hr].
  - split; [by eexists|]. repeat constructor.
  - pose proof (reachable_wf m Hreach) as Hm. pose proof Hm as (Hworld & Hwf & _).
    rewrite (registerState_run m stateStr context Hm) in Hrun. cbv zeta in Hrun.
    destruct (resolve (heap m) (_worldState m) _) as [nodes|] eqn:Hr.
    2:{ destruct (ancestor_walk _ _ _); injection Hrun as <- _ _;
          [by apply wf_objects_alloc|done..]. }
    pose proof (leaf_is_Some _ Hwf _ _ _ Hworld Hr) as [st Hst].
    rewrite Hst in Hrun. destruct (js_in _ _); injection Hrun as <- _ _.
    + by apply wf_objects_alloc.
    + apply (wf_objects_add_key
               (with_heap m (heap m ++ [new_State _ context]))).
      * by apply wf_objects_alloc.
      * simpl. by apply lookup_app_l_Some.
  - destruct (changeState_wf _ _ _ _ _ _ _ (reachable_wf m Hreach) Hrun Hr)
      as (_ & Hh & Hw).
    destruct IH as [Hworld Hall]. split; by rewrite Hh, ?Hw.
Qed.

Lemma common_prefix_length_nil_r p : common_prefix_length p [] = 0.
Proof. by destruct p. Qed.

(** The state at position [i] of a walk is stored under the key of segment
    [i], which is the key of its name. *)
Lemma resolve_lookup h descr :
  wf_heap h →
  ∀ l0 nodes i l x,
    resolve h l0 descr = Some nodes → nodes !! i = Some l → descr !! i = Some x →
    ∃ st, h !! l = Some st ∧ to_key (_name st) = to_key x.
Proof.
  intros Hwf. induction descr as [|y descr IH]; intros l0 nodes i l x; [done|].
  simpl. destruct (child h l0 y) as [c|] eqn:Hc; simpl; [|done].
  destruct (resolve h c descr) as [nodes'|] eqn:Hr; simpl; [|done].
  intros [= <-]. destruct i as [|i]; simpl.
  - intros [= <-] [= <-].
    by destruct (wf_heap_child _ Hwf _ _ _ Hc) as [_ ?].
  - intros ??. by eapply IH.
Qed.

(** ** After a transition *)

Lemma leaf_app l nodes1 nodes2 : leaf l (nodes1 ++ nodes2) = leaf (leaf l nodes1) nodes2.
Proof.
  unfold leaf. rewrite last_app. by destruct (last nodes2).
Qed.

Lemma default_chain_end h l chain :
  default_chain h l chain → default_child h (leaf l chain) = None.
Proof.
  induction 1 as [l Hn|l c chain Hc _ IH]; [done|]. by rewrite leaf_cons.
Qed.

Lemma common_prefix_length_app p q : common_prefix_length (p ++ q) p = length p.
Proof.
  induction p as [|a p IH]; simpl; [by destruct q|].
  rewrite decide_True by done. by rewrite IH.
Qed.

Lemma common_prefix_length_take p q :
  take (common_prefix_length p q) p = take (common_prefix_length p q) q.
Proof.
  revert q. induction p as [|a p IH]; intros [|b q]; simpl; try done.
  case_decide; [|done]. subst. simpl. by rewrite IH.
Qed.

Lemma resolve_take h l descr nodes k :
  resolve h l descr = Some nodes →
  resolve h l (take k descr) = Some (take k nodes).
Proof.
  revert l nodes k. induction descr as [|x descr IH]; intros l nodes k; simpl.
  - intros [= <-]. by destruct k.
  - destruct (child h l x) as [c|] eqn:Hc; simpl; [|done].
    destruct (resolve h c descr) as [nodes'|] eqn:Hr; simpl; [|done].
    intros [= <-]. destruct k as [|k]; simpl; [done|].
    rewrite Hc. simpl. by rewrite (IH _ _ k Hr).
Qed.

(** ** Nesting of the calls *)

Lemma replay_app log1 log2 active :
  replay (log1 ++ log2) active = replay log1 active ≫= replay log2.
Proof.
  revert active. induction log1 as [|[l|l] log1 IH]; intros active; simpl; [done|done|].
  destruct (last active) as [l'|]; [|done]. by case_decide.
Qed.

Lemma replay_enters nodes active :
  replay (Enter <$> nodes) active = Some (active ++ nodes).
Proof.
  revert active. induction nodes as [|l nodes IH]; intros active; simpl.
  - by rewrite app_nil_r.
  - rewrite IH. by rewrite <-(assoc_L (++)).
Qed.

Lemma replay_exits nodes active :
  replay (Exit <$> rev nodes) (active ++ nodes) = Some active.
Proof.
  induction nodes as [|l nodes IH] using rev_ind; simpl.
  - by rewrite app_nil_r.
  - rewrite rev_unit. simpl. rewrite (assoc_L (++)), last_snoc.
    rewrite decide_True by done. by rewrite removelast_last.
Qed.

Lemma history_reachable m log : history m log → reachable m.
Proof.
  induction 1 as [|m log stateStr context m' log' r _ IH Hrun
                  |m log fuel newStateStr forceAll m' log' _ IH Hrun].
  - constructor.
  - by eapply reachable_registerState.
  - by eapply reachable_changeState.
Qed.

Lemma history_after_registerState m log stateStr context :
  history m log → history (after (registerState stateStr context) m) log.
Proof.
  intros Hm. unfold after.
  destruct (run (registerState stateStr context) m) as [[m' log'] r] eqn:Hrun.
  pose proof (keeps_path_registerState stateStr context (m, [])) as (_ & _ & Hlog).
  unfold run in Hrun. rewrite Hrun in Hlog. simpl in *. subst log'.
  rewrite <-(app_nil_r log). by eapply history_registerState.
Qed.

Lemma history_registered paths : history (registered paths) [].
Proof.
  unfold registered. generalize history_new. generalize new_StateManager.
  induction paths as [|p paths IH]; intros m Hm; [done|].
  simpl. by apply IH, history_after_registerState.
Qed.

(** ** Registering and finding *)

Lemma ancestors_last_segment descr :
  descr ≠ [] → descr = ancestors descr ++ [last_segment descr].
Proof.
  intros Hne. destruct descr as [|x d _] using rev_ind; [done|].
  unfold ancestors, last_segment, arr_length. rewrite length_app. simpl.
  replace (length d + 1 - 1) with (length d) by lia.
  replace (Z.of_nat (length d + 1) - 1)%Z with (Z.of_nat (length d)) by lia.
  rewrite take_app_length, arr_get_nat.
  rewrite lookup_app_r by done. by rewrite Nat.sub_diag.
Qed.

Lemma stateDescrFromStateStr_not_nil s : s ≠ "" → stateDescrFromStateStr s ≠ [].
Proof.
  intros Hs. unfold stateDescrFromStateStr. rewrite bool_decide_false by done.
  pose proof (split_not_nil "."%char s). by destruct (split _ s).
Qed.

(** A walk to a path with one more segment. *)
Lemma resolve_snoc h l descr x :
  resolve h l (descr ++ [x])
  = nodes ← resolve h l descr;
    c ← child h (leaf l nodes) x;
    Some (nodes ++ [c]).
Proof.
  rewrite resolve_app. destruct (resolve h l descr) as [nodes|]; simpl; [|done].
  by destruct (child h (leaf l nodes) x).
Qed.

(** ** The store is a tree *)

(** Every manager a program builds is a tree. *)
Lemma reachable_tree m : reachable m → tree m.
Proof.
  induction 1 as [|m stateStr context m' log r Hreach IH Hrun
                  |m fuel newStateStr forceAll m' log r Hreach IH Hrun Hr].
  - split; intros l x; unfold child; simpl.
    + destruct l as [|[|l]]; simpl; by rewrite ?lookup_empty.
    + intros l2 x1 x2 c. destruct l as [|[|l]]; simpl; by rewrite ?lookup_empty.
  - pose proof (reachable_wf m Hreach) as Hm. pose proof Hm as (Hworld & Hwf & _).
    destruct IH as [Hroot Huniq].
    rewrite (registerState_run m stateStr context Hm) in Hrun. cbv zeta in Hrun.
    destruct (resolve (heap m) (_worldState m) _) as [nodes|] eqn:Hres.
    2:{ destruct (ancestor_walk _ _ _); injection Hrun as <- _ _; [|done..].
        split; simpl.
        - intros l x. rewrite child_alloc. apply Hroot.
        - intros l1 l2 x1 x2 c. rewrite !child_alloc. apply Huniq. }
    pose proof (leaf_is_Some _ Hwf _ _ _ Hworld Hres) as [st Hst].
    rewrite Hst in Hrun. destruct (js_in _ _); injection Hrun as <- _ _; split; simpl.
    + intros l x. rewrite child_alloc. apply Hroot.
    + intros l1 l2 x1 x2 c. rewrite !child_alloc. apply Huniq.
    + intros l x. rewrite (child_register _ _ _ _ _ _ _ _ Hst).
      case_decide; [|apply Hroot].
      destruct Hworld as [? Hworld]. apply lookup_lt_Some in Hworld.
      intros [= ?]. lia.
    + assert (∀ l x, child (heap m) l x ≠ Some (length (heap m))) as Hfresh.
      { intros l x Hc.
        destruct (wf_heap_child _ Hwf _ _ _ Hc) as [_ (cst & Hcst & _)].
        apply lookup_lt_Some in Hcst. lia. }
      intros l1 l2 x1 x2 c. rewrite !(child_register _ _ _ _ _ _ _ _ Hst).
      destruct (decide (l1 = _ ∧ _)) as [[-> _]|_];
        destruct (decide (l2 = _ ∧ _)) as [[-> _]|_]; intros Ha Hb.
      * done.
      * injection Ha as <-. by apply Hfresh in Hb.
      * injection Hb as <-. by apply Hfresh in Ha.
      * by eapply Huniq.
  - destruct (changeState_wf _ _ _ _ _ _ _ (reachable_wf m Hreach) Hrun Hr)
      as (_ & Hh & Hw).
    destruct IH as [Hroot Huniq]. split; rewrite Hh, ?Hw; done.
Qed.

Lemma resolve_snoc_Some h l descr x nodes c :
  resolve h l (descr ++ [x]) = Some (nodes ++ [c]) →
  resolve h l descr = Some nodes ∧ child h (leaf l nodes) x = Some c.
Proof.
  rewrite resolve_snoc.
  destruct (resolve h l descr) as [nodes'|]; simpl; [|done].
  destruct (child h (leaf l nodes') x) as [c'|] eqn:Hc; simpl; [|done].
  intros [= Heq]. apply app_inj_tail in Heq as [-> ->]. done.
Qed.

(** Two walks from the world state that end in the same state are the same
    walk. *)
Lemma resolve_inj m :
  wf m → tree m →
  ∀ descr1 descr2 nodes1 nodes2 c,
    resolve (heap m) (_worldState m) descr1 = Some (nodes1 ++ [c]) →
    resolve (heap m) (_worldState m) descr2 = Some (nodes2 ++ [c]) →
    nodes1 = nodes2 ∧ to_key <$> descr1 = to_key <$> descr2.
Proof.
  intros (_ & Hwf & _) [Hroot Huniq].
  induction descr1 as [|x1 descr1 IH] using rev_ind;
    intros descr2 nodes1 nodes2 c Hr1 Hr2.
  { simpl in Hr1. injection Hr1 as Hr1. by destruct nodes1. }
  destruct descr2 as [|x2 descr2 _] using rev_ind.
  { simpl in Hr2. injection Hr2 as Hr2. by destruct nodes2. }
  apply resolve_snoc_Some in Hr1 as [Hn1 Hc1]. apply resolve_snoc_Some in Hr2 as [Hn2 Hc2].
  pose proof (Huniq _ _ _ _ _ Hc1 Hc2) as Hparent.
  destruct (wf_heap_child _ Hwf _ _ _ Hc1) as [_ (cst & Hcst & Hk1)].
  destruct (wf_heap_child _ Hwf _ _ _ Hc2) as [_ (cst' & Hcst' & Hk2)].
  assert (to_key x1 = to_key x2) as Hkey by congruence.
  assert (nodes1 = nodes2 ∧ to_key <$> descr1 = to_key <$> descr2) as [-> Hd].
  { destruct nodes1 as [|p1 nodes1 _] using rev_ind;
      destruct nodes2 as [|p2 nodes2 _] using rev_ind.
    - apply resolve_length in Hn1, Hn2.
      destruct descr1, descr2; simpl in *; try lia. done.
    - exfalso. unfold leaf in Hparent. rewrite last_snoc in Hparent. simpl in Hparent.
      destruct descr2 as [|y descr2 _] using rev_ind;
        [apply resolve_length in Hn2; rewrite length_app in Hn2; simpl in Hn2; lia|].
      apply resolve_snoc_Some in Hn2 as [_ Hc'].
      rewrite <-Hparent in Hc'. by apply Hroot in Hc'.
    - exfalso. unfold leaf in Hparent. rewrite last_snoc in Hparent. simpl in Hparent.
      destruct descr1 as [|y descr1 _] using rev_ind;
        [apply resolve_length in Hn1; rewrite length_app in Hn1; simpl in Hn1; lia|].
      apply resolve_snoc_Some in Hn1 as [_ Hc'].
      rewrite Hparent in Hc'. by apply Hroot in Hc'.
    - unfold leaf in Hparent. rewrite !last_snoc in Hparent. simpl in Hparent.
      subst p2. by destruct (IH _ _ _ _ Hn1 Hn2) as [-> ->]. }
  split; [done|]. rewrite !fmap_app, Hd. simpl. by rewrite Hkey.
Qed.

(** ** Moving along a branch *)


(** ** The context functions a transition runs *)

Lemma callbacks_app h log1 log2 :
  callbacks h (log1 ++ log2) = callbacks h log1 ++ callbacks h log2.
Proof. unfold callbacks. apply bind_app. Qed.

(** Calls of [exit] on constructed states run the [exit] functions of their
    contexts. *)
Lemma callbacks_exits h nodes :
  Forall constructed h → callbacks h (Exit <$> nodes) = exit_calls h nodes.
Proof.
  intros Hall. induction nodes as [|l nodes IH]; [done|].
  unfold callbacks, exit_calls in *. rewrite fmap_cons, !bind_cons, IH. f_equal.
  destruct (h !! l) as [st|] eqn:Hst; simpl; [|done].
  rewrite Forall_forall in Hall.
  destruct (Hall st) as [_ Hexit]; [apply list_elem_of_lookup; eauto|].
  rewrite Hexit. unfold has_exit. simpl.
  destruct (_context st) as [c|]; simpl; [|done]. by destruct (ctx_exit c).
Qed.

Lemma callbacks_enters h nodes :
  Forall constructed h → callbacks h (Enter <$> nodes) = enter_calls h nodes.
Proof.
  intros Hall. induction nodes as [|l nodes IH]; [done|].
  unfold callbacks, enter_calls in *. rewrite fmap_cons, !bind_cons, IH. f_equal.
  destruct (h !! l) as [st|] eqn:Hst; simpl; [|done].
  rewrite Forall_forall in Hall.
  destruct (Hall st) as [Henter _]; [apply list_elem_of_lookup; eauto|].
  rewrite Henter. unfold has_enter. simpl.
  destruct (_context st) as [c|]; simpl; [|done]. by destruct (ctx_enter c).
Qed.

Lemma callbacks_transition h exits enters :
  Forall constructed h →
  callbacks h ((Exit <$> exits) ++ (Enter <$> enters))
  = exit_calls h exits ++ enter_calls h enters.
Proof.
  intros Hall. by rewrite callbacks_app, callbacks_exits, callbacks_enters.
Qed.

Lemma exit_calls_exit h nodes c : c ∈ exit_calls h nodes → ∃ x, c = ContextExit x.
Proof.
  unfold exit_calls. intros (l & Hc & _)%list_elem_of_bind.
  destruct (h !! l) as [st|]; [|by apply elem_of_nil in Hc].
  destruct (has_exit st); [|by apply elem_of_nil in Hc].
  apply list_elem_of_singleton in Hc. eauto.
Qed.

Lemma enter_calls_enter h nodes c : c ∈ enter_calls h nodes → ∃ x, c = ContextEnter x.
Proof.
  unfold enter_calls. intros (l & Hc & _)%list_elem_of_bind.
  destruct (h !! l) as [st|]; [|by apply elem_of_nil in Hc].
  destruct (has_enter st); [|by apply elem_of_nil in Hc].
  apply list_elem_of_singleton in Hc. eauto.
Qed.

(** Every [exit] function runs before every [enter] function. *)
Lemma exit_calls_before_enter_calls h exits enters i j x y :
  (exit_calls h exits ++ enter_calls h enters) !! i = Some (ContextExit x) →
  (exit_calls h exits ++ enter_calls h enters) !! j = Some (ContextEnter y) →
  i < j.
Proof.
  intros Hi Hj.
  destruct (decide (i < length (exit_calls h exits))) as [Hlt|Hge].
  - destruct (decide (j < length (exit_calls h exits))) as [Hjlt|]; [|lia].
    rewrite lookup_app_l in Hj by done.
    apply list_elem_of_lookup_2, exit_calls_exit in Hj as [? ?]. done.
  - rewrite lookup_app_r in Hi by lia.
    apply list_elem_of_lookup_2, enter_calls_enter in Hi as [? ?]. done.
Qed.

(** ** Names, and the states a failed transition calls *)

Lemma last_segment_Undefined s :
  last_segment (stateDescrFromStateStr s) = Undefined → stateDescrFromStateStr s = [].
Proof.
  intros Hlast. destruct (decide (stateDescrFromStateStr s = [])) as [|Hne]; [done|].
  pose proof (stateDescrFromStateStr_segments s) as Hall.
  rewrite (ancestors_last_segment _ Hne) in Hall.
  apply Forall_app in Hall as [_ Hall].
  apply Forall_singleton in Hall as (p & Hp & _). congruence.
Qed.

Lemma stateDescrFromStateStr_defined s :
  Forall (λ x, x ≠ Undefined) (stateDescrFromStateStr s).
Proof.
  eapply Forall_impl; [apply stateDescrFromStateStr_segments|].
  by intros x (p & -> & _).
Qed.

(** The states of a chain of default substates are default substates. *)
Lemma default_chain_default h l chain c :
  default_chain h l chain → c ∈ chain → ∃ l', default_child h l' = Some c.
Proof.
  induction 1 as [l Hn|l c' chain Hc _ IH]; [by intros ?%elem_of_nil|].
  intros [->|Hin]%elem_of_cons; eauto.
Qed.

(** No default substate has the name [undefined]. *)
Lemma default_child_defined m l c :
  wf m → wf_objects m → named m →
  default_child (heap m) l = Some c → name_of (heap m) c ≠ Undefined.
Proof.
  intros (_ & Hwf & _) [(world & Hworld & Hctx) _] [Hnamed _] Hc Hname.
  destruct (default_child_wf _ Hwf _ _ Hc) as [_ (cst & Hcst & Hchild)].
  unfold name_of in Hname. rewrite Hcst in Hname. simpl in Hname.
  rewrite (Hnamed _ _ _ _ Hchild Hcst Hname) in Hc.
  unfold default_child in Hc. rewrite Hworld in Hc. simpl in Hc.
  by rewrite Hctx in Hc.
Qed.

Lemma named_alloc m name context :
  wf m → named m → named (with_heap m (heap m ++ [new_State name context])).
Proof.
  intros (_ & Hwf & _) [Hnamed Hpath]. split; [|done]. simpl.
  intros l x c cst. rewrite child_alloc. intros Hc Hcst.
  destruct (wf_heap_child _ Hwf _ _ _ Hc) as [_ (cst' & Hcst' & _)].
  rewrite (lookup_app_l_Some _ _ _ _ Hcst') in Hcst.
  injection Hcst as <-. by eapply Hnamed.
Qed.

(** Every manager a program builds names its states so. *)
Lemma reachable_named m : reachable m → named m.
Proof.
  induction 1 as [|m stateStr context m' log r Hreach IH Hrun
                  |m fuel newStateStr forceAll m' log r Hreach IH Hrun Hr].
  - split; [|done]. intros l x c cst. unfold child. simpl.
    destruct l as [|[|l]]; simpl; by rewrite ?lookup_empty.
  - pose proof (reachable_wf m Hreach) as Hm. pose proof Hm as (Hworld & Hwf & _).
    rewrite (registerState_run m stateStr context Hm) in Hrun. cbv zeta in Hrun.
    destruct (resolve (heap m) (_worldState m) _) as [nodes|] eqn:Hres.
    2:{ destruct (ancestor_walk _ _ _); injection Hrun as <- _ _;
          [by apply named_alloc|done..]. }
    pose proof (leaf_is_Some _ Hwf _ _ _ Hworld Hres) as [st Hst].
    rewrite Hst in Hrun.
    destruct (js_in _ _); injection Hrun as <- _ _; [by apply named_alloc|].
    destruct IH as [Hnamed Hpath]. split; [|done]. simpl.
    intros l x c cst. rewrite (child_register _ _ _ _ _ _ _ _ Hst).
    pose proof (lookup_lt_Some _ _ _ Hst) as Hlt.
    case_decide as Hnew.
    + intros [= <-]. rewrite list_lookup_insert_ne by lia.
      rewrite lookup_app_r by done. rewrite Nat.sub_diag. intros [= <-]. simpl.
      intros Hlast%last_segment_Undefined. destruct Hnew as [-> _].
      rewrite Hlast in Hres. by injection Hres as <-.
    + intros Hc Hcst Hname.
      destruct (wf_heap_child _ Hwf _ _ _ Hc) as [_ (cst' & Hcst' & _)].
      apply (Hnamed l x c cst'); [done..|].
      destruct (decide (c = leaf (_worldState m) nodes)) as [->|Hne].
      * rewrite list_lookup_insert_eq in Hcst by (rewrite length_app; lia).
        injection Hcst as <-. simpl in Hname. congruence.
      * rewrite list_lookup_insert_ne in Hcst by done.
        rewrite (lookup_app_l_Some _ _ _ _ Hcst') in Hcst. congruence.
  - pose proof (reachable_wf m Hreach) as Hm. pose proof Hm as (_ & Hwf & _).
    pose proof (reachable_wf_objects m Hreach) as Hobj.
    destruct (changeState_cases m fuel newStateStr forceAll Hm)
      as (curNodes & Hcur & Hcases).
    destruct (resolve (heap m) (_worldState m) (stateDescrFromStateStr newStateStr))
      as [newNodes|] eqn:Hnew.
    2:{ rewrite Hcases in Hrun. by injection Hrun as <- _ _. }
    destruct Hcases as (chain & Hchain & _ & Hcases). case_decide.
    2:{ unfold completion_of in Hcases. by rewrite Hrun in Hcases. }
    rewrite Hcases in Hrun. injection Hrun as <- _ _.
    destruct IH as [Hnamed Hpath]. split; [done|]. simpl.
    apply Forall_app. split; [apply stateDescrFromStateStr_defined|].
    apply Forall_fmap, Forall_forall. intros c Hc.
    destruct (default_chain_default _ _ _ _ Hchain Hc) as [l' Hl'].
    by eapply (default_child_defined m).
Qed.

Lemma resolve_prefix_length h l descr :
  length (resolve_prefix h l descr) ≤ length descr.
Proof.
  revert l. induction descr as [|x descr IH]; intros l; simpl; [done|].
  destruct (child h l x) as [c|]; simpl; [|lia]. specialize (IH c). lia.
Qed.

(** The states met before a segment fails are those of a walk. *)
Lemma resolve_prefix_take h l descr j :
  j ≤ length (resolve_prefix h l descr) →
  resolve h l (take j descr) = Some (take j (resolve_prefix h l descr)).
Proof.
  revert l j. induction descr as [|x descr IH]; intros l j Hj; simpl in *.
  - by rewrite !take_nil.
  - destruct j as [|j]; [done|]. simpl.
    destruct (child h l x) as [c|]; simpl in *; [|lia].
    by rewrite IH by lia.
Qed.

(** A walk along the common prefix of a path that resolves meets the states
    of that path. *)
Lemma resolve_prefix_common h l cur new curNodes :
  resolve h l cur = Some curNodes →
  take (common_prefix_length cur new) (resolve_prefix h l new)
  = take (common_prefix_length cur new) curNodes.
Proof.
  intros Hcur.
  pose proof (common_prefix_resolves _ _ _ new _ Hcur) as Hk.
  pose proof (resolve_prefix_take h l new _ Hk) as H1.
  pose proof (resolve_take _ _ _ _ (common_prefix_length cur new) Hcur) as H2.
  rewrite common_prefix_length_take in H2. congruence.
Qed.

Lemma to_key_inj_defined x y :
  x ≠ Undefined → y ≠ Undefined → to_key x = to_key y → x = y.
Proof. destruct x, y; simpl; congruence. Qed.

(** Without [forceAll] the states entered are not among the states exited:
    a state common to both walks lies on the common prefix. *)
Lemma unforced_no_reentry m new curNodes :
  wf m → tree m →
  Forall (λ x, x ≠ Undefined) (_currentStateDescr m) →
  Forall (λ x, x ≠ Undefined) new →
  resolve (heap m) (_worldState m) (_currentStateDescr m) = Some curNodes →
  ∀ l, l ∈ drop (common_prefix_length (_currentStateDescr m) new) curNodes →
       l ∉ drop (common_prefix_length (_currentStateDescr m) new)
             (resolve_prefix (heap m) (_worldState m) new).
Proof.
  intros Hm Htree Hcurdef Hnewdef Hcur l Hex Hen.
  set (cur := _currentStateDescr m) in *.
  set (k := common_prefix_length cur new) in *.
  set (reached := resolve_prefix (heap m) (_worldState m) new) in *.
  apply list_elem_of_lookup in Hex as [i Hi]. apply list_elem_of_lookup in Hen as [j Hj].
  rewrite lookup_drop in Hi, Hj.
  pose proof (lookup_lt_Some _ _ _ Hi) as Hilt.
  pose proof (lookup_lt_Some _ _ _ Hj) as Hjlt.
  pose proof (resolve_length _ _ _ _ Hcur) as Hlen.
  pose proof (resolve_prefix_length (heap m) (_worldState m) new) as Hlen'.
  fold reached in Hlen'.
  pose proof (resolve_take _ _ _ _ (S (k + i)) Hcur) as H1.
  rewrite (take_S_r _ _ l Hi) in H1.
  pose proof (resolve_prefix_take (heap m) (_worldState m) new (S (k + j))
                ltac:(fold reached; lia)) as H2.
  fold reached in H2. rewrite (take_S_r _ _ l Hj) in H2.
  destruct (resolve_inj m Hm Htree _ _ _ _ _ H1 H2) as [Hnodes Hkeys].
  assert (i = j) as <-.
  { apply (f_equal length) in Hnodes. rewrite !length_take in Hnodes. lia. }
  assert (S (k + i) ≤ common_prefix_length cur new) as Hle; [|fold k in Hle; lia].
  apply common_prefix_length_largest; [lia..|]. intros t Ht.
  apply (f_equal (.!! t)) in Hkeys.
  rewrite !list_lookup_fmap, !lookup_take_lt in Hkeys by lia.
  destruct (cur !! t) as [x|] eqn:Hx; [|apply lookup_ge_None in Hx; lia].
  destruct (new !! t) as [y|] eqn:Hy; [|apply lookup_ge_None in Hy; lia].
  simpl in Hkeys. injection Hkeys as Hkeys. f_equal.
  apply to_key_inj_defined; [| |done].
  - apply (Forall_lookup_1 _ _ _ _ Hcurdef Hx).
  - apply (Forall_lookup_1 _ _ _ _ Hnewdef Hy).
Qed.

Lemma elem_of_rev {A} (x : A) (l : list A) : x ∈ rev l ↔ x ∈ l.
Proof. rewrite !list_elem_of_In. symmetry. apply in_rev. Qed.

Lemma elem_of_exits_enters exits enters l :
  (Exit l ∈ (Exit <$> exits) ++ (Enter <$> enters) ↔ l ∈ exits) ∧
  (Enter l ∈ (Exit <$> exits) ++ (Enter <$> enters) ↔ l ∈ enters).
Proof.
  rewrite !elem_of_app, !list_elem_of_fmap. split; split.
  - intros [(y & [= ->] & Hy)|(y & [=] & _)]. done.
  - intros Hl. left. eauto.
  - intros [(y & [=] & _)|(y & [= ->] & Hy)]. done.
  - intros Hl. right. eauto.
Qed.

(** * The claims *)

(** C1. The change level computed by [changeState] is the length of the
    longest common prefix of the current path and the parsed target path:
    the two paths agree below it, it is within both, and no larger number
    has these properties.  With [forceAll] unset, going from [a.b.c] to
    [a.b.d] exits only [c] and enters only [d], and going from [a.b] to
    [a.c.d] exits [b] and enters [c] then [d]. *)
Theorem C1_change_level :
  (∀ (cur : list jsval) (newStateStr : string),
     let new := stateDescrFromStateStr newStateStr in
     let k := computeChangeLevel cur new in
     k = Z.of_nat (common_prefix_length cur new) ∧
     (0 ≤ k ≤ arr_length cur)%Z ∧ (k ≤ arr_length new)%Z ∧
     (∀ i, (0 ≤ i < k)%Z → loose_eq (arr_get cur i) (arr_get new i) = true) ∧
     (∀ k', (0 ≤ k' ≤ arr_length cur)%Z → (k' ≤ arr_length new)%Z →
        (∀ i, (0 ≤ i < k')%Z → loose_eq (arr_get cur i) (arr_get new i) = true) →
        (k' ≤ k)%Z)) ∧
  (let m := after (changeState 7 "a.b.c" false) example_tree in
   currentState m = "a.b.c" ∧
   run (changeState 7 "a.b.d" false) m
   = (with_currentStateDescr m [Str "a"; Str "b"; Str "d"],
      [Exit 3; Enter 4], Return tt) ∧
   callbacks (heap m) [Exit 3; Enter 4]
   = [ContextExit (Str "c"); ContextEnter (Str "d")]) ∧
  (let m := after (changeState 7 "a.b" false) example_tree in
   currentState m = "a.b" ∧
   run (changeState 7 "a.c.d" false) m
   = (with_currentStateDescr m [Str "a"; Str "c"; Str "d"],
      [Exit 2; Enter 5; Enter 6], Return tt) ∧
   callbacks (heap m) [Exit 2; Enter 5; Enter 6]
   = [ContextExit (Str "b"); ContextEnter (Str "c"); ContextEnter (Str "d")]).
Proof.
  split; [|split; vm_compute; done].
  intros cur newStateStr new k. unfold k.
  rewrite computeChangeLevel_common_prefix.
  destruct (common_prefix_length_le cur new) as [Hcur Hnew].
  unfold arr_length. split_and!; try lia.
  - intros i Hi. unfold loose_eq. apply bool_decide_eq_true.
    replace i with (Z.of_nat (Z.to_nat i)) by lia. rewrite !arr_get_nat.
    f_equal. apply common_prefix_length_agree. lia.
  - intros k' Hk'cur Hk'new Hagree.
    assert (Z.to_nat k' ≤ common_prefix_length cur new); [|lia].
    apply common_prefix_length_largest; [lia..|].
    intros i Hi. specialize (Hagree (Z.of_nat i) ltac:(lia)).
    unfold loose_eq in Hagree. apply bool_decide_eq_true in Hagree.
    rewrite !arr_get_nat in Hagree.
    destruct (cur !! i) eqn:H1, (new !! i) eqn:H2; simpl in *; try congruence.
    all: try (apply lookup_ge_None in H1; lia).
    all: apply lookup_ge_None in H2; lia.
Qed.

Lemma C1_change_level_witness :
  loose_eq (arr_get [Str "a"; Str "b"] 0)
           (arr_get (stateDescrFromStateStr "a.c.d") 0) = true.
Proof.
  apply (proj1 (proj2 (proj2 (proj2
           (proj1 C1_change_level [Str "a"; Str "b"] "a.c.d"))))).
  by vm_compute.
Defined.

(** C2. A transition calls [exit] on exactly the states of the current path
    from the change level on (on all of them when [forceAll]), deepest
    first, and then [enter] on the states of the new path from the change
    level on (all of them when [forceAll]), shallowest first; every [exit]
    comes before every [enter], and each call runs the function of that
    name of the state's context, when it has one, with the state's name.
    But the states entered are not exactly those of the new path: the walk
    stops at the first segment that does not resolve, so only the states
    before it are entered, and when no segment fails the loop over the
    default substates goes on to enter the chain of default substates below
    the last state of the new path. *)
Theorem C2_exit_then_enter m fuel newStateStr forceAll m' log r :
  reachable m →
  run (changeState fuel newStateStr forceAll) m = (m', log, r) →
  r ≠ OutOfFuel →
  let cur := _currentStateDescr m in
  let new := stateDescrFromStateStr newStateStr in
  let k := Z.to_nat (computeChangeLevel cur new) in
  let newNodes := resolve_prefix (heap m) (_worldState m) new in
  ∃ curNodes chain,
    let exited := rev (if forceAll then curNodes else drop k curNodes) in
    let entered := (if forceAll then newNodes else drop k newNodes) ++ chain in
    resolve (heap m) (_worldState m) cur = Some curNodes ∧
    (is_Some (resolve (heap m) (_worldState m) new) →
     resolve (heap m) (_worldState m) new = Some newNodes ∧
     default_chain (heap m) (leaf (_worldState m) newNodes) chain ∧
     resolve (heap m') (_worldState m') (_currentStateDescr m')
     = Some (newNodes ++ chain)) ∧
    (resolve (heap m) (_worldState m) new = None →
     chain = [] ∧ m' = m ∧ r ≠ Return tt) ∧
    log = (Exit <$> exited) ++ (Enter <$> entered) ∧
    callbacks (heap m) log
    = exit_calls (heap m) exited ++ enter_calls (heap m) entered ∧
    (∀ i j l l', log !! i = Some (Exit l) → log !! j = Some (Enter l') → i < j) ∧
    (∀ i j x y,
       callbacks (heap m) log !! i = Some (ContextExit x) →
       callbacks (heap m) log !! j = Some (ContextEnter y) → i < j).
Proof.
  intros Hreach Hrun Hr cur new k newNodes.
  pose proof (reachable_wf m Hreach) as Hm. pose proof Hm as (_ & Hwf & _).
  destruct (reachable_wf_objects m Hreach) as [_ Hobj].
  destruct (changeState_cases m fuel newStateStr forceAll Hm) as (curNodes & Hcur & Hcases).
  fold new in Hcases. unfold k. rewrite computeChangeLevel_common_prefix, Nat2Z.id.
  exists curNodes.
  assert (∃ chain,
            (is_Some (resolve (heap m) (_worldState m) new) →
             resolve (heap m) (_worldState m) new = Some newNodes ∧
             default_chain (heap m) (leaf (_worldState m) newNodes) chain ∧
             resolve (heap m') (_worldState m') (_currentStateDescr m')
             = Some (newNodes ++ chain)) ∧
            (resolve (heap m) (_worldState m) new = None →
             chain = [] ∧ m' = m ∧ r ≠ Return tt) ∧
            log = (Exit <$> rev (touched (common_prefix_length cur new) forceAll curNodes))
                  ++ (Enter <$> (touched (common_prefix_length cur new) forceAll newNodes
                                 ++ chain)))
    as (chain & Hres & Hunres & Hlog).
  { destruct (resolve (heap m) (_worldState m) new) as [nodes|] eqn:Hnew.
    - destruct Hcases as (chain & Hchain & _ & Hcases).
      assert (newNodes = nodes) as -> by (by apply resolve_prefix_resolve).
      case_decide.
      2:{ unfold completion_of in Hcases. rewrite Hrun in Hcases. done. }
      rewrite Hcases in Hrun. injection Hrun as <- <- <-.
      exists chain. split_and!; [|done|by rewrite fmap_app].
      intros _. split_and!; [done..|]. simpl. rewrite resolve_app, Hnew. simpl.
      by rewrite (default_chain_resolve _ Hwf _ _ Hchain).
    - rewrite Hcases in Hrun. injection Hrun as <- <- <-.
      exists []. split_and!; [by intros [? ?]| |by rewrite app_nil_r].
      intros _. split_and!; [done..|]. by destruct (fails_at_inherited _ _ _). }
  exists chain. cbv zeta. unfold touched in Hlog.
  assert (log = (Exit <$> rev (if forceAll then curNodes
                               else drop (common_prefix_length cur new) curNodes))
                ++ (Enter <$> ((if forceAll then newNodes
                                else drop (common_prefix_length cur new) newNodes)
                               ++ chain))) as Hlog'
    by (by destruct forceAll).
  split_and!; [done..| | |].
  - rewrite Hlog'. by apply callbacks_transition.
  - intros i j l l'. rewrite Hlog'. apply exits_before_enters.
  - intros i j x y. rewrite Hlog', (callbacks_transition _ _ _ Hobj).
    apply exit_calls_before_enter_calls.
Qed.

Lemma C2_exit_then_enter_witness :
  let m := after (changeState 4 "a.b.c" false) example_chain in
  let m' := with_currentStateDescr m [Str "a"; Str "b"; Str "c"] in
  let log := [Exit 3; Exit 2; Enter 2; Enter 3] in
  let newNodes := resolve_prefix (heap m) (_worldState m) (stateDescrFromStateStr "a") in
  ∃ curNodes chain,
    let exited := rev (drop 1 curNodes) in
    let entered := drop 1 newNodes ++ chain in
    resolve (heap m) (_worldState m) (_currentStateDescr m) = Some curNodes ∧
    (is_Some (resolve (heap m) (_worldState m) (stateDescrFromStateStr "a")) →
     resolve (heap m) (_worldState m) (stateDescrFromStateStr "a") = Some newNodes ∧
     default_chain (heap m) (leaf (_worldState m) newNodes) chain ∧
     resolve (heap m') (_worldState m') (_currentStateDescr m')
     = Some (newNodes ++ chain)) ∧
    (resolve (heap m) (_worldState m) (stateDescrFromStateStr "a") = None →
     chain = [] ∧ m' = m ∧ Return tt ≠ Return tt) ∧
    log = (Exit <$> exited) ++ (Enter <$> entered) ∧
    callbacks (heap m) log
    = exit_calls (heap m) exited ++ enter_calls (heap m) entered ∧
    (∀ i j l l', log !! i = Some (Exit l) → log !! j = Some (Enter l') → i < j) ∧
    (∀ i j x y,
       callbacks (heap m) log !! i = Some (ContextExit x) →
       callbacks (heap m) log !! j = Some (ContextEnter y) → i < j).
Proof.
  intros m m' log.
  apply (C2_exit_then_enter m 4 "a" false m' log (Return tt)).
  - apply reachable_after_changeState; [apply reachable_registered|]. by vm_compute.
  - by vm_compute.
  - done.
Defined.

(** C2 as the specification words it fails where the target has default
    substates: [changeState('a')] on the chain [a], [a.b], [a.b.c] of
    default substates, from the empty path, runs the [enter] functions of
    [a], [b] and [c], and the new path [a] has the one state [a]. *)
Lemma C2_cascade_enters_more :
  callbacks (heap example_chain) (log_of (changeState 4 "a" false) example_chain)
  = [ContextEnter (Str "a"); ContextEnter (Str "b"); ContextEnter (Str "c")] ∧
  resolve (heap example_chain) (_worldState example_chain) (stateDescrFromStateStr "a")
  = Some [1] ∧
  enter_calls (heap example_chain) [1] = [ContextEnter (Str "a")] ∧
  ¬ callbacks_as_specified example_chain 4 "a" false.
Proof.
  split_and!; [by vm_compute..|].
  intros (curNodes & Hcur & Hcb). vm_compute in Hcur. injection Hcur as <-.
  vm_compute in Hcb. discriminate.
Qed.

(** C3. [changeState(p)] on a path [p] that resolves runs to the end of the
    chain of default substates below the last state of [p] (given fuel for
    the chain), and afterwards the current path is [p] followed by the names
    of that chain, each of them entered in turn; [currentState()] is the
    joined path, and is [p] itself when the last state has no default
    substate.  The call returns normally unless the state the chain ends in
    names an inherited property as its default substate: [enter] is then
    called on the value of that property, and the call throws a [TypeError]
    with the current path written all the same.  With [a] having the default
    [b] and [a.b] the default [c], [changeState('a')] makes [currentState()]
    equal to ['a.b.c']. *)
Theorem C3_default_cascade :
  (∀ m p forceAll nodes,
     wf m →
     resolve (heap m) (_worldState m) (stateDescrFromStateStr p) = Some nodes →
     ∃ chain,
       default_chain (heap m) (leaf (_worldState m) nodes) chain ∧
       length chain < length (heap m) ∧
       ∀ fuel, length chain < fuel →
         let m' := after (changeState fuel p forceAll) m in
         let names := name_of (heap m) <$> chain in
         let last := leaf (leaf (_worldState m) nodes) chain in
         completion_of (changeState fuel p forceAll) m
         = (if default_inherited (heap m) last then Throw TypeError else Return tt) ∧
         (∃ log, log_of (changeState fuel p forceAll) m = log ++ (Enter <$> chain)) ∧
         _currentStateDescr m' = stateDescrFromStateStr p ++ names ∧
         currentState m' = join "." (stateDescrFromStateStr p ++ names) ∧
         (chain = [] → currentState m' = p)) ∧
  (let m' := after (changeState 4 "a" false) example_chain in
   completion_of (changeState 4 "a" false) example_chain = Return tt ∧
   log_of (changeState 4 "a" false) example_chain = [Enter 1; Enter 2; Enter 3] ∧
   callbacks (heap example_chain) [Enter 1; Enter 2; Enter 3]
   = [ContextEnter (Str "a"); ContextEnter (Str "b"); ContextEnter (Str "c")] ∧
   currentState m' = "a.b.c") ∧
  (let m := registered [("a", logging_default "b"); ("a.b", logging_default "constructor")] in
   run (changeState 3 "a" false) m
   = (with_currentStateDescr m [Str "a"; Str "b"], [Enter 1; Enter 2], Throw TypeError) ∧
   currentState (after (changeState 3 "a" false) m) = "a.b").
Proof.
  split; [|split; by vm_compute].
  intros m p forceAll nodes Hm Hnodes.
  pose proof (λ fuel, changeState_cases m fuel p forceAll Hm) as Hcases.
  cbv zeta in Hcases. rewrite Hnodes in Hcases.
  destruct (Hcases 0) as (curNodes & Hcur & chain & Hchain & Hlen & _).
  exists chain. split_and!; [done..|].
  intros fuel Hfuel m' names last.
  destruct (Hcases fuel) as (curNodes' & Hcur' & chain' & Hchain' & _ & Hrun).
  assert (chain' = chain) as -> by (by eapply default_chain_det).
  rewrite decide_True in Hrun by done.
  unfold m', completion_of, log_of, after, currentState. rewrite Hrun. simpl.
  split_and!; try done.
  - eexists. by rewrite (assoc_L (++)).
  - intros ->. subst names. simpl. rewrite app_nil_r.
    apply join_stateDescrFromStateStr.
Qed.

Lemma C3_default_cascade_witness :
  ∃ chain,
    default_chain (heap example_chain) (leaf (_worldState example_chain) [1; 2]) chain ∧
    length chain < length (heap example_chain) ∧
    ∀ fuel, length chain < fuel →
      let m' := after (changeState fuel "a.b" true) example_chain in
      let names := name_of (heap example_chain) <$> chain in
      let last := leaf (leaf (_worldState example_chain) [1; 2]) chain in
      completion_of (changeState fuel "a.b" true) example_chain
      = (if default_inherited (heap example_chain) last
         then Throw TypeError else Return tt) ∧
      (∃ log, log_of (changeState fuel "a.b" true) example_chain
              = log ++ (Enter <$> chain)) ∧
      _currentStateDescr m' = stateDescrFromStateStr "a.b" ++ names ∧
      currentState m' = join "." (stateDescrFromStateStr "a.b" ++ names) ∧
      (chain = [] → currentState m' = "a.b").
Proof.
  apply (proj1 C3_default_cascade example_chain "a.b" true [1; 2]).
  - apply wf_registered.
  - by vm_compute.
Defined.

(** C4. A transition to a path that does not resolve never returns normally:
    it throws ['UnknownSubstate'] at the first segment that is the name of
    no substate (or a [TypeError], when that segment is the name of an
    inherited property).  By then [exit] was called on the touched states
    of the current path and [enter] on the touched states before the
    segment that failed; nothing is called after the failure, so the
    entered states are not exited again, and the manager, with its current
    path, is as it was before the call: the new path is assigned only after
    both walks.  Without [forceAll] no state that was exited is entered
    again; with it the states of the common prefix of the two paths are
    exited and entered again.  ['UnknownSubstate'] is thrown in no other
    way. *)
Theorem C4_abort_mid_walk :
  (∀ m fuel newStateStr (forceAll : bool),
     reachable m →
     let new := stateDescrFromStateStr newStateStr in
     let k := Z.to_nat (computeChangeLevel (_currentStateDescr m) new) in
     let reached := resolve_prefix (heap m) (_worldState m) new in
     ∃ curNodes : list loc,
       let exited := if forceAll then curNodes else drop k curNodes in
       let entered := if forceAll then reached else drop k reached in
       let log := (Exit <$> rev exited) ++ (Enter <$> entered) in
       resolve (heap m) (_worldState m) (_currentStateDescr m) = Some curNodes ∧
       (resolve (heap m) (_worldState m) new = None →
        run (changeState fuel newStateStr forceAll) m
        = (m, log,
           Throw (if fails_at_inherited (heap m) (_worldState m) new
                  then TypeError else UnknownSubstate)) ∧
        callbacks (heap m) log
        = exit_calls (heap m) (rev exited) ++ enter_calls (heap m) entered ∧
        (forceAll = false → no_exited_state_entered log) ∧
        (forceAll = true →
         ∀ l, l ∈ take k curNodes → Exit l ∈ log ∧ Enter l ∈ log)) ∧
       (∀ m' log',
          run (changeState fuel newStateStr forceAll) m = (m', log', Throw UnknownSubstate) →
          resolve (heap m) (_worldState m) new = None ∧
          m' = m ∧ log' = log ∧ currentState m' = currentState m) ∧
       (∀ m' log' e,
          run (changeState fuel newStateStr forceAll) m = (m', log', Throw e) →
          is_Some (resolve (heap m) (_worldState m) new) → e = TypeError)) ∧
  (let m := after (changeState 7 "a.b.c" false) example_tree in
   currentState m = "a.b.c" ∧
   run (changeState 7 "a.c.x.y" false) m
   = (m, [Exit 3; Exit 2; Enter 5], Throw UnknownSubstate) ∧
   callbacks (heap m) [Exit 3; Exit 2; Enter 5]
   = [ContextExit (Str "c"); ContextExit (Str "b"); ContextEnter (Str "c")]) ∧
  (let m := after (changeState 7 "a.b" false) example_tree in
   run (changeState 7 "a.x" true) m
   = (m, [Exit 2; Exit 1; Enter 1], Throw UnknownSubstate) ∧
   run (changeState 7 "a.x" false) m = (m, [Exit 2], Throw UnknownSubstate) ∧
   run (changeState 7 "a.toString" false) m = (m, [Exit 2], Throw TypeError) ∧
   run (changeState 7 "toString" false) new_StateManager
   = (new_StateManager, [], Throw TypeError)).
Proof.
  split; [|split; by vm_compute].
  intros m fuel newStateStr forceAll Hreach new k reached.
  pose proof (reachable_wf m Hreach) as Hm.
  destruct (reachable_wf_objects m Hreach) as [_ Hobj].
  destruct (reachable_named m Hreach) as [_ Hdefined].
  destruct (changeState_cases m fuel newStateStr forceAll Hm) as (curNodes & Hcur & Hcases).
  fold new in Hcases. exists curNodes. cbv zeta.
  unfold k. rewrite computeChangeLevel_common_prefix, Nat2Z.id.
  set (n := common_prefix_length (_currentStateDescr m) new) in *.
  assert (touched n forceAll curNodes = if forceAll then curNodes else drop n curNodes)
    as Hex by done.
  assert (touched n forceAll reached = if forceAll then reached else drop n reached)
    as Hen by done.
  rewrite Hex in Hcases. split; [done|].
  destruct (resolve (heap m) (_worldState m) new) as [newNodes|] eqn:Hnew.
  - destruct Hcases as (chain & Hchain & _ & Hcases). split_and!; [done| |].
    + intros m' log' Hrun. case_decide.
      * rewrite Hcases in Hrun. injection Hrun as _ _ Hr.
        unfold cascade_completion in Hr. by destruct (default_inherited _ _).
      * unfold completion_of in Hcases. by rewrite Hrun in Hcases.
    + intros m' log' e Hrun _. case_decide.
      * rewrite Hcases in Hrun. injection Hrun as _ _ Hr.
        unfold cascade_completion in Hr.
        destruct (default_inherited _ _); congruence.
      * unfold completion_of in Hcases. by rewrite Hrun in Hcases.
  - fold reached in Hcases. rewrite Hen in Hcases. split_and!.
    + intros _. split_and!; [done|by apply callbacks_transition| |].
      * intros ->. intros l Hexit%elem_of_exits_enters Henter%elem_of_exits_enters.
        apply (proj1 (elem_of_rev _ _)) in Hexit.
        by apply (unforced_no_reentry m new curNodes Hm (reachable_tree m Hreach)
                    Hdefined (stateDescrFromStateStr_defined _) Hcur l).
      * intros -> l Hl. split; apply elem_of_exits_enters.
        -- apply elem_of_rev. by apply (subseteq_take n).
        -- apply (subseteq_take n).
           unfold reached, n. by rewrite (resolve_prefix_common _ _ _ _ _ Hcur).
    + intros m' log' Hrun. rewrite Hcases in Hrun. by injection Hrun as <- <- _.
    + by intros m' log' e _ [? ?].
Qed.

Lemma C4_abort_mid_walk_witness :
  let m := after (changeState 7 "a.b.c" false) example_tree in
  let reached :=
    resolve_prefix (heap m) (_worldState m) (stateDescrFromStateStr "a.c.x.y") in
  ∃ curNodes : list loc,
    let exited := drop 1 curNodes in
    let entered := drop 1 reached in
    let log := (Exit <$> rev exited) ++ (Enter <$> entered) in
    resolve (heap m) (_worldState m) (_currentStateDescr m) = Some curNodes ∧
    (resolve (heap m) (_worldState m) (stateDescrFromStateStr "a.c.x.y") = None →
     run (changeState 7 "a.c.x.y" false) m = (m, log, Throw UnknownSubstate) ∧
     callbacks (heap m) log
     = exit_calls (heap m) (rev exited) ++ enter_calls (heap m) entered ∧
     (false = false → no_exited_state_entered log) ∧
     (false = true →
      ∀ l, l ∈ take 1 curNodes → Exit l ∈ log ∧ Enter l ∈ log)) ∧
    (∀ m' log',
       run (changeState 7 "a.c.x.y" false) m = (m', log', Throw UnknownSubstate) →
       resolve (heap m) (_worldState m) (stateDescrFromStateStr "a.c.x.y") = None ∧
       m' = m ∧ log' = log ∧ currentState m' = currentState m) ∧
    (∀ m' log' e,
       run (changeState 7 "a.c.x.y" false) m = (m', log', Throw e) →
       is_Some (resolve (heap m) (_worldState m) (stateDescrFromStateStr "a.c.x.y")) →
       e = TypeError).
Proof.
  intros m. apply (proj1 C4_abort_mid_walk m 7 "a.c.x.y" false).
  apply reachable_after_changeState; [apply reachable_registered|]. by vm_compute.
Defined.

(** C4 as the specification words it fails for a forced transition: from
    [a.b], [changeState('a.x', true)] exits [b] and [a], enters [a] again
    and then throws at [x]. *)
Lemma C4_forced_walk_reenters :
  run (changeState 7 "a.x" true) (after (changeState 7 "a.b" false) example_tree)
  = (after (changeState 7 "a.b" false) example_tree,
     [Exit 2; Exit 1; Enter 1], Throw UnknownSubstate) ∧
  ¬ no_exited_state_entered
      (log_of (changeState 7 "a.x" true) (after (changeState 7 "a.b" false) example_tree)).
Proof.
  split; [by vm_compute|]. intros Hno.
  replace (log_of _ _) with [Exit 2; Exit 1; Enter 1] in Hno by (by vm_compute).
  apply (Hno 1); set_solver.
Qed.

(** C5. On every manager built by [registerState] and [changeState] calls the
    loop over the default substates ends: started at any state of the store
    it completes within as many rounds as the store has objects, because
    each default substate was allocated after its parent (it ends normally
    at a state without a default substate, or with the [TypeError] of a
    default substate name that is an inherited property); so every
    [changeState] call completes, and more fuel does not change its
    result. *)
Theorem C5_cascade_terminates m :
  reachable m →
  (∀ state log fuel,
     state < length (heap m) → length (heap m) ≤ fuel →
     ∃ chain,
       default_chain (heap m) state chain ∧
       length chain < length (heap m) ∧
       enter_defaults fuel (Obj state) (m, log)
       = ((with_currentStateDescr m
             (_currentStateDescr m ++ (name_of (heap m) <$> chain)),
           log ++ (Enter <$> chain)),
          cascade_completion (heap m) (leaf state chain))) ∧
  (∀ newStateStr forceAll fuel,
     length (heap m) ≤ fuel →
     completion_of (changeState fuel newStateStr forceAll) m ≠ OutOfFuel ∧
     run (changeState fuel newStateStr forceAll) m
     = run (changeState (length (heap m)) newStateStr forceAll) m).
Proof.
  intros Hreach. pose proof (reachable_wf m Hreach) as Hm.
  pose proof Hm as (Hworld & Hwf & _). split.
  - intros state log fuel Hstate Hfuel.
    destruct (default_chain_exists (heap m) Hwf state) as (chain & Hchain & Hlen).
    exists chain. split_and!; [done|lia|].
    apply (enter_defaults_run (heap m) Hwf state chain); try done; [|lia].
    by apply lookup_lt_is_Some.
  - intros newStateStr forceAll fuel Hfuel.
    by destruct (changeState_fuel m newStateStr forceAll fuel Hm Hfuel).
Qed.

Lemma C5_cascade_terminates_witness :
  (∀ state log fuel,
     state < length (heap example_chain) → length (heap example_chain) ≤ fuel →
     ∃ chain,
       default_chain (heap example_chain) state chain ∧
       length chain < length (heap example_chain) ∧
       enter_defaults fuel (Obj state) (example_chain, log)
       = ((with_currentStateDescr example_chain
             (_currentStateDescr example_chain
              ++ (name_of (heap example_chain) <$> chain)),
           log ++ (Enter <$> chain)),
          cascade_completion (heap example_chain) (leaf state chain))) ∧
  (∀ newStateStr forceAll fuel,
     length (heap example_chain) ≤ fuel →
     completion_of (changeState fuel newStateStr forceAll) example_chain ≠ OutOfFuel ∧
     run (changeState fuel newStateStr forceAll) example_chain
     = run (changeState (length (heap example_chain)) newStateStr forceAll) example_chain).
Proof. apply (C5_cascade_terminates example_chain), reachable_registered. Defined.

(** C6. On every manager built by [registerState] and [changeState] calls the
    current path can be walked from the world state, every segment being
    found among the substates of the state before it; and a path that can be
    walked still leads through the same states after any further
    [registerState] or [changeState] call, since calls only add to the
    tree. *)
Theorem C6_current_path_resolves m :
  reachable m →
  is_Some (resolve (heap m) (_worldState m) (_currentStateDescr m)) ∧
  (∀ descr nodes,
     resolve (heap m) (_worldState m) descr = Some nodes →
     (∀ stateStr context m' log r,
        run (registerState stateStr context) m = (m', log, r) →
        resolve (heap m') (_worldState m') descr = Some nodes ∧
        is_Some (resolve (heap m') (_worldState m') (_currentStateDescr m'))) ∧
     (∀ fuel newStateStr forceAll m' log r,
        run (changeState fuel newStateStr forceAll) m = (m', log, r) →
        r ≠ OutOfFuel →
        resolve (heap m') (_worldState m') descr = Some nodes ∧
        is_Some (resolve (heap m') (_worldState m') (_currentStateDescr m')))).
Proof.
  intros Hreach. pose proof (reachable_wf m Hreach) as Hm.
  split; [apply Hm|]. intros descr nodes Hdescr. split.
  - intros stateStr context m' log r Hrun.
    destruct (registerState_wf _ _ _ _ _ _ Hm Hrun) as (Hm' & Hext & Hw & Hpath).
    split; [|apply Hm']. rewrite Hw. by eapply extends_resolve.
  - intros fuel newStateStr forceAll m' log r Hrun Hr.
    destruct (changeState_wf _ _ _ _ _ _ _ Hm Hrun Hr) as (Hm' & Hh & Hw).
    split; [|apply Hm']. by rewrite Hh, Hw.
Qed.

Lemma C6_current_path_resolves_witness :
  let m := after (changeState 4 "a" false) example_chain in
  is_Some (resolve (heap m) (_worldState m) (_currentStateDescr m)) ∧
  (∀ descr nodes,
     resolve (heap m) (_worldState m) descr = Some nodes →
     (∀ stateStr context m' log r,
        run (registerState stateStr context) m = (m', log, r) →
        resolve (heap m') (_worldState m') descr = Some nodes ∧
        is_Some (resolve (heap m') (_worldState m') (_currentStateDescr m'))) ∧
     (∀ fuel newStateStr forceAll m' log r,
        run (changeState fuel newStateStr forceAll) m = (m', log, r) →
        r ≠ OutOfFuel →
        resolve (heap m') (_worldState m') descr = Some nodes ∧
        is_Some (resolve (heap m') (_worldState m') (_currentStateDescr m')))).
Proof.
  intros m. apply (C6_current_path_resolves m).
  apply reachable_after_changeState; [apply reachable_registered|]. by vm_compute.
Defined.

(** C7. When the current path is the target path, [changeState(p, true)]
    calls [exit] on every state of the path, deepest first, and then [enter]
    on every state of it, shallowest first (and then on the default
    substates below it, if any were registered since), although the change
    level is the full length of the path and the same call without
    [forceAll] calls neither.  Both calls complete as the loop over the
    default substates does.  From [a.b] to [a.b]: exit [b], exit [a],
    enter [a], enter [b]. *)
Theorem C7_forceAll :
  (∀ m fuel p nodes chain,
     wf m →
     _currentStateDescr m = stateDescrFromStateStr p →
     resolve (heap m) (_worldState m) (stateDescrFromStateStr p) = Some nodes →
     default_chain (heap m) (leaf (_worldState m) nodes) chain →
     length chain < fuel →
     let m' := with_currentStateDescr m
                 (stateDescrFromStateStr p ++ (name_of (heap m) <$> chain)) in
     let r := cascade_completion (heap m) (leaf (leaf (_worldState m) nodes) chain) in
     computeChangeLevel (_currentStateDescr m) (stateDescrFromStateStr p)
     = arr_length (stateDescrFromStateStr p) ∧
     run (changeState fuel p true) m
     = (m', (Exit <$> rev nodes) ++ (Enter <$> nodes) ++ (Enter <$> chain), r) ∧
     run (changeState fuel p false) m = (m', Enter <$> chain, r)) ∧
  (let m := after (changeState 7 "a.b" false) example_tree in
   currentState m = "a.b" ∧
   run (changeState 7 "a.b" true) m
   = (m, [Exit 2; Exit 1; Enter 1; Enter 2], Return tt) ∧
   callbacks (heap m) [Exit 2; Exit 1; Enter 1; Enter 2]
   = [ContextExit (Str "b"); ContextExit (Str "a");
      ContextEnter (Str "a"); ContextEnter (Str "b")] ∧
   run (changeState 7 "a.b" false) m = (m, [], Return tt)).
Proof.
  split; [|by vm_compute].
  intros m fuel p nodes chain Hm Hcur Hnodes Hchain Hfuel m' r.
  assert (resolve (heap m) (_worldState m) (_currentStateDescr m) = Some nodes) as Hcur'
    by (by rewrite Hcur).
  rewrite computeChangeLevel_common_prefix, Hcur, common_prefix_length_refl.
  split; [done|].
  rewrite !(changeState_resolved m fuel p _ nodes nodes chain); try done.
  rewrite Hcur, common_prefix_length_refl. unfold touched.
  rewrite <-(resolve_length _ _ _ _ Hnodes), drop_all. done.
Qed.

Lemma C7_forceAll_witness :
  let m := after (changeState 4 "a.b" false) example_chain in
  let m' := with_currentStateDescr m
              (stateDescrFromStateStr "a.b.c" ++ (name_of (heap m) <$> [])) in
  computeChangeLevel (_currentStateDescr m) (stateDescrFromStateStr "a.b.c")
  = arr_length (stateDescrFromStateStr "a.b.c") ∧
  run (changeState 1 "a.b.c" true) m
  = (m', (Exit <$> rev [1; 2; 3]) ++ (Enter <$> [1; 2; 3]) ++ (Enter <$> []), Return tt) ∧
  run (changeState 1 "a.b.c" false) m = (m', Enter <$> [], Return tt).
Proof.
  intros m. apply (proj1 C7_forceAll m 1 "a.b.c" [1; 2; 3] []).
  - apply reachable_wf, reachable_after_changeState; [apply reachable_registered|].
    by vm_compute.
  - by vm_compute.
  - by vm_compute.
  - apply default_chain_nil. by vm_compute.
  - simpl. lia.
Defined.

(** C8. [registerState] throws ['UnknownSubstate'] when a segment before the
    last one is the name of no substate and of no inherited property, and
    ['SubstateAlreadyExists'] when the parent already has a substate under
    the key of the last segment; registering [x.y] before [x] throws the
    first, registering [x] twice the second.  But the tests are [in] tests
    on plain objects, which the properties of [Object.prototype] pass too:
    when the last segment is the name of one the call throws
    ['SubstateAlreadyExists'] although the parent has no such substate, as
    [registerState('constructor')] does on a new manager, and when a
    segment before it is the name of one the call throws a [TypeError].
    When the call returns, the tree has gained one link, from the parent to
    the one new state, under that key. *)
Theorem C8_registerState_errors :
  (∀ m stateStr context,
     wf m →
     let stateDescr := stateDescrFromStateStr stateStr in
     let name := last_segment stateDescr in
     let m' := after (registerState stateStr context) m in
     match resolve (heap m) (_worldState m) (ancestors stateDescr) with
     | None =>
         completion_of (registerState stateStr context) m
         = Throw (if fails_at_inherited (heap m) (_worldState m) (ancestors stateDescr)
                  then TypeError else UnknownSubstate) ∧
         ∀ l x, child (heap m') l x = child (heap m) l x
     | Some nodes =>
         let parentState := leaf (_worldState m) nodes in
         match child (heap m) parentState name with
         | Some _ =>
             completion_of (registerState stateStr context) m
             = Throw SubstateAlreadyExists ∧
             ∀ l x, child (heap m') l x = child (heap m) l x
         | None =>
             if inherited (to_key name) then
               completion_of (registerState stateStr context) m
               = Throw SubstateAlreadyExists ∧
               ∀ l x, child (heap m') l x = child (heap m) l x
             else
               completion_of (registerState stateStr context) m = Return tt ∧
               length (heap m') = S (length (heap m)) ∧
               heap m' !! length (heap m) = Some (new_State name context) ∧
               ∀ l x, child (heap m') l x
                      = if decide (l = parentState ∧ to_key x = to_key name)
                        then Some (length (heap m))
                        else child (heap m) l x
         end
     end) ∧
  (completion_of (registerState "x.y" logging) new_StateManager
   = Throw UnknownSubstate ∧
   completion_of (registerState "x" logging) (registered [("x", logging)])
   = Throw SubstateAlreadyExists ∧
   completion_of (registerState "a.x.y" logging) example_tree
   = Throw UnknownSubstate ∧
   completion_of (registerState "a.b.c" logging) example_tree
   = Throw SubstateAlreadyExists) ∧
  (child (heap new_StateManager) (_worldState new_StateManager) (Str "constructor") = None ∧
   completion_of (registerState "constructor" logging) new_StateManager
   = Throw SubstateAlreadyExists ∧
   child (heap example_tree) 1 (Str "__proto__") = None ∧
   completion_of (registerState "a.__proto__" logging) example_tree
   = Throw SubstateAlreadyExists ∧
   completion_of (registerState "a.hasOwnProperty.k" logging) example_tree
   = Throw TypeError ∧
   completion_of (registerState "toString.k" logging) new_StateManager
   = Throw TypeError).
Proof.
  split; [|split; by vm_compute].
  intros m stateStr context Hm stateDescr name m'.
  pose proof Hm as (Hworld & Hwf & _).
  pose proof (registerState_run m stateStr context Hm) as Hrun. cbv zeta in Hrun.
  fold stateDescr name in Hrun. unfold m', completion_of, after.
  destruct (resolve (heap m) (_worldState m) (ancestors stateDescr)) as [nodes|] eqn:Hr.
  - pose proof (leaf_is_Some _ Hwf _ _ _ Hworld Hr) as [st Hst].
    rewrite Hst in Hrun. rewrite (js_in_child _ _ _ _ Hst) in Hrun.
    destruct (child (heap m) (leaf (_worldState m) nodes) name) as [c|] eqn:Hc.
    { rewrite bool_decide_true in Hrun by eauto. rewrite Hrun. simpl.
      split; [done|]. intros l x. apply child_alloc. }
    rewrite bool_decide_false in Hrun by (by intros [? ?]). simpl in Hrun.
    destruct (inherited (to_key name)); rewrite Hrun; simpl.
    { split; [done|]. intros l x. apply child_alloc. }
    split_and!; [done| | |].
    + rewrite length_insert, length_app. simpl. lia.
    + rewrite list_lookup_insert_ne by (apply lookup_lt_Some in Hst; lia).
      rewrite lookup_app_r by done. by rewrite Nat.sub_diag.
    + intros l x. by apply child_register.
  - pose proof (ancestor_walk_unresolved _ _ _ Hr) as Hw.
    destruct (fails_at_inherited _ _ _).
    + destruct Hw as [Hw|(key & _ & Hw)]; rewrite Hw in Hrun; rewrite Hrun; simpl;
        (split; [done|]); intros l x; [done|apply child_alloc].
    + rewrite Hw in Hrun. by rewrite Hrun.
Qed.

Lemma C8_registerState_errors_witness :
  let m' := after (registerState "a.b.e" logging) example_tree in
  completion_of (registerState "a.b.e" logging) example_tree = Return tt ∧
  length (heap m') = S (length (heap example_tree)) ∧
  heap m' !! length (heap example_tree) = Some (new_State (Str "e") logging) ∧
  ∀ l x, child (heap m') l x
         = if decide (l = 2 ∧ to_key x = "e")
           then Some (length (heap example_tree))
           else child (heap example_tree) l x.
Proof.
  exact (proj1 C8_registerState_errors example_tree "a.b.e" logging
           (wf_registered _)).
Defined.

(** C9. The empty string parses to no segments, so [registerState('')]
    walks nothing and adds the new state to the world state itself: it
    registers a top-level state.  Its name is what [stateDescr[-1]] reads,
    [undefined], and its key is ['undefined']; the call throws
    ['SubstateAlreadyExists'] when the world state has that key already. *)
Theorem C9_registerState_empty :
  stateDescrFromStateStr "" = [] ∧
  (∀ m context,
     wf m →
     ∃ world,
       heap m !! _worldState m = Some world ∧
       run (registerState "" context) m
       = if decide (is_Some (_substates world !! "undefined"))
         then (with_heap m (heap m ++ [new_State Undefined context]), [],
               Throw SubstateAlreadyExists)
         else (with_heap m
                 (<[_worldState m := add_key world "undefined" (length (heap m))]>
                    (heap m ++ [new_State Undefined context])),
               [], Return tt)) ∧
  (let m := after (registerState "" logging) new_StateManager in
   completion_of (registerState "" logging) new_StateManager = Return tt ∧
   child (heap m) (_worldState m) (Str "undefined") = Some 1 ∧
   heap m !! 1 = Some (new_State Undefined logging) ∧
   run (changeState 2 "undefined" false) m
   = (with_currentStateDescr m [Str "undefined"], [Enter 1], Return tt) ∧
   callbacks (heap m) [Enter 1] = [ContextEnter Undefined] ∧
   completion_of (registerState "" logging) m = Throw SubstateAlreadyExists).
Proof.
  split; [done|]. split; [|by vm_compute].
  intros m context Hm. pose proof Hm as ([world Hworld] & _ & _).
  exists world. split; [done|].
  rewrite (registerState_run m "" context Hm).
  change (stateDescrFromStateStr "") with (@nil jsval).
  cbv zeta. simpl resolve. unfold leaf. simpl default. rewrite Hworld.
  change (last_segment []) with Undefined. unfold js_in.
  change (inherited (to_key Undefined)) with false. rewrite orb_false_r.
  case_decide; [by rewrite bool_decide_true|by rewrite bool_decide_false].
Qed.

Lemma C9_registerState_empty_witness :
  ∃ world,
    heap example_tree !! _worldState example_tree = Some world ∧
    run (registerState "" None) example_tree
    = if decide (is_Some (_substates world !! "undefined"))
      then (with_heap example_tree (heap example_tree ++ [new_State Undefined None]), [],
            Throw SubstateAlreadyExists)
      else (with_heap example_tree
              (<[_worldState example_tree :=
                   add_key world "undefined" (length (heap example_tree))]>
                 (heap example_tree ++ [new_State Undefined None])),
            [], Return tt).
Proof.
  exact (proj1 (proj2 C9_registerState_empty) example_tree None (wf_registered _)).
Defined.

(** C10. [registerState] never writes the current path: [currentState()]
    returns the same string after the call as before it, whether the call
    returns or throws, and the call calls neither [enter] nor [exit].  On a
    manager that satisfies the invariant the store gains at most one object
    and the tree at most one link, which leads to that object. *)
Theorem C10_registerState_keeps_currentState :
  (∀ m stateStr context,
     let m' := after (registerState stateStr context) m in
     _currentStateDescr m' = _currentStateDescr m ∧
     currentState m' = currentState m ∧
     _worldState m' = _worldState m ∧
     log_of (registerState stateStr context) m = []) ∧
  (∀ m stateStr context,
     wf m →
     let m' := after (registerState stateStr context) m in
     length (heap m') ≤ S (length (heap m)) ∧
     extends (heap m) (heap m') ∧
     ((∀ l x, child (heap m') l x = child (heap m) l x) ∨
      (completion_of (registerState stateStr context) m = Return tt ∧
       ∃ parentState key,
         child (heap m) parentState (Str key) = None ∧
         ∀ l x, child (heap m') l x
                = if decide (l = parentState ∧ to_key x = key)
                  then Some (length (heap m))
                  else child (heap m) l x))).
Proof.
  split.
  - intros m stateStr context m'.
    destruct (keeps_path_registerState stateStr context (m, [])) as (Hpath & Hw & Hlog).
    unfold m', after, log_of, run, currentState. simpl in *. by rewrite Hpath.
  - intros m stateStr context Hm m'. pose proof Hm as (Hworld & Hwf & _).
    destruct (run (registerState stateStr context) m) as [[m'' log] r] eqn:Hrun.
    destruct (registerState_wf _ _ _ _ _ _ Hm Hrun) as (_ & Hext & _ & _).
    assert (m'' = m') as -> by (unfold m', after; by rewrite Hrun).
    unfold completion_of. rewrite Hrun.
    rewrite (registerState_run m stateStr context Hm) in Hrun. cbv zeta in Hrun.
    split_and!; [|done|]; clear Hext;
      (destruct (resolve (heap m) (_worldState m) _) as [nodes|] eqn:Hr;
       [pose proof (leaf_is_Some _ Hwf _ _ _ Hworld Hr) as [st Hst];
        rewrite Hst in Hrun;
        destruct (js_in _ (_substates st)) eqn:Hdup; injection Hrun as <- _ <-
       |destruct (ancestor_walk _ _ _); injection Hrun as <- _ <-]); simpl.
    + rewrite length_app. simpl. lia.
    + rewrite length_insert, length_app. simpl. lia.
    + rewrite length_app. simpl. lia.
    + lia.
    + lia.
    + left. intros l x. apply child_alloc.
    + right. split; [done|].
      exists (leaf (_worldState m) nodes),
             (to_key (last_segment (stateDescrFromStateStr stateStr))).
      split.
      * unfold child. rewrite Hst. simpl. by apply js_in_false in Hdup as [? _].
      * intros l x. by apply child_register.
    + left. intros l x. apply child_alloc.
    + by left.
    + by left.
Qed.

Lemma C10_registerState_keeps_currentState_witness :
  let m := after (changeState 7 "a.b" false) example_tree in
  let m' := after (registerState "a.b.e" logging) m in
  length (heap m') ≤ S (length (heap m)) ∧
  extends (heap m) (heap m') ∧
  ((∀ l x, child (heap m') l x = child (heap m) l x) ∨
   (completion_of (registerState "a.b.e" logging) m = Return tt ∧
    ∃ parentState key,
      child (heap m) parentState (Str key) = None ∧
      ∀ l x, child (heap m') l x
             = if decide (l = parentState ∧ to_key x = key)
               then Some (length (heap m))
               else child (heap m) l x)).
Proof.
  intros m. apply (proj2 C10_registerState_keeps_currentState m "a.b.e" logging).
  apply reachable_wf, reachable_after_changeState; [apply reachable_registered|].
  by vm_compute.
Defined.

(** * Further properties *)

(** X1. Parsing a state string and joining the segments with dots are inverse
    to each other: joining what was parsed gives the string back, for every
    string, and parsing what was joined gives the segments back when no
    segment contains a dot, except for the single empty segment, whose join
    is the empty string and parses to no segment at all. *)
Theorem X1_parse_join_round_trip :
  (∀ s, join "." (stateDescrFromStateStr s) = s) ∧
  (∀ pieces,
     Forall (λ p, count_char "." p = 0) pieces →
     pieces ≠ [""] →
     stateDescrFromStateStr (join "." (Str <$> pieces)) = Str <$> pieces) ∧
  stateDescrFromStateStr (join "." [Str ""]) = [].
Proof.
  split_and!; [apply join_stateDescrFromStateStr| |done].
  intros pieces Hall Hne. unfold stateDescrFromStateStr.
  destruct pieces as [|p pieces]; [done|].
  case_bool_decide as Hempty.
  - exfalso. destruct pieces as [|q pieces].
    + simpl in Hempty. by subst.
    + change (Str <$> p :: q :: pieces) with (Str p :: Str q :: (Str <$> pieces)) in Hempty.
      rewrite join_cons in Hempty. simpl in Hempty.
      apply (f_equal (count_char ".")) in Hempty. revert Hempty.
      apply Forall_cons in Hall as [Hp _]. clear -Hp.
      induction p as [|a p IH]; simpl in *; [done|].
      case_bool_decide; [done|]. simpl in *. by apply IH.
  - f_equal. by apply (split_join "."%char).
Qed.

Lemma X1_parse_join_round_trip_witness :
  stateDescrFromStateStr (join "." (Str <$> ["a"; ""; "bc"]))
  = Str <$> ["a"; ""; "bc"].
Proof.
  apply (proj1 (proj2 X1_parse_join_round_trip)).
  - repeat constructor.
  - done.
Defined.

(** X2. A state string that is not empty parses to one segment more than it
    has dots, every segment being a string without a dot (possibly empty);
    the empty string parses to no segment. *)
Theorem X2_parse_shape (s : string) :
  length (stateDescrFromStateStr s)
  = (if decide (s = "") then 0 else S (count_char "." s)) ∧
  Forall (λ v, ∃ p, v = Str p ∧ count_char "." p = 0) (stateDescrFromStateStr s).
Proof.
  unfold stateDescrFromStateStr. case_bool_decide as Hs.
  - rewrite decide_True by done. by split.
  - rewrite decide_False by done. rewrite length_fmap, length_split.
    split; [done|]. apply Forall_fmap.
    eapply Forall_impl; [apply split_pieces|]. intros p Hp. by exists p.
Qed.

(** X3. [changeState] never touches the tree: whatever the manager, the
    target, [forceAll] and the way the call ends, the store holds the same
    objects with the same substates afterwards.  Only [registerState] adds
    states. *)
Theorem X3_changeState_keeps_tree m fuel newStateStr forceAll :
  heap (after (changeState fuel newStateStr forceAll) m) = heap m ∧
  _worldState (after (changeState fuel newStateStr forceAll) m) = _worldState m.
Proof.
  assert (keeps_heap (changeState fuel newStateStr forceAll)) as Hkeeps;
    [|apply (Hkeeps (m, []))].
  unfold changeState.
  apply keeps_heap_bind; [by intros σ|]. intros cur.
  apply keeps_heap_bind; [by intros σ|]. intros world.
  apply keeps_heap_bind.
  { apply keeps_heap_for_each. intros i [state exitStates].
    apply keeps_heap_bind; [|intros state'; apply keeps_heap_ret].
    apply keeps_heap_call. intros this. apply keeps_heap_getSubstate. }
  intros [state exitStates].
  apply keeps_heap_bind; [apply keeps_heap_exit_all|]. intros _.
  apply keeps_heap_bind.
  { apply keeps_heap_for_each. intros i state'.
    apply keeps_heap_bind.
    { apply keeps_heap_call. intros this. apply keeps_heap_getSubstate. }
    intros state''.
    apply keeps_heap_bind; [|intros _; apply keeps_heap_ret].
    destruct (_ || _); [|apply keeps_heap_ret].
    apply keeps_heap_call, keeps_heap_call_enter. }
  intros state'.
  apply keeps_heap_bind; [by intros σ|]. intros _.
  apply keeps_heap_enter_defaults.
Qed.

(** X4. [changeState('')] on a manager a program built calls [exit] on every
    state of the current path, deepest first, calls no [enter] (the world
    state has no context, hence no default substate), and leaves the current
    path empty, so that [currentState()] is the empty string; [forceAll]
    makes no difference. *)
Theorem X4_changeState_to_root m fuel forceAll :
  reachable m → 0 < fuel →
  ∃ curNodes,
    resolve (heap m) (_worldState m) (_currentStateDescr m) = Some curNodes ∧
    run (changeState fuel "" forceAll) m
    = (with_currentStateDescr m [], Exit <$> rev curNodes, Return tt) ∧
    currentState (after (changeState fuel "" forceAll) m) = "".
Proof.
  intros Hreach Hfuel. pose proof (reachable_wf m Hreach) as Hm.
  destruct (reachable_wf_objects m Hreach) as [(world & Hworld & Hctx) _].
  pose proof Hm as (_ & _ & [curNodes Hcur]). exists curNodes. split; [done|].
  assert (run (changeState fuel "" forceAll) m
          = (with_currentStateDescr m [], Exit <$> rev curNodes, Return tt)) as Hrun.
  { rewrite (changeState_resolved m fuel "" forceAll curNodes [] []); try done.
    - change (stateDescrFromStateStr "") with (@nil jsval).
      rewrite common_prefix_length_nil_r. unfold touched.
      replace (cascade_completion (heap m) _) with (@Return unit tt).
      { destruct forceAll; simpl; by rewrite ?drop_0, ?app_nil_r. }
      unfold cascade_completion, default_inherited, leaf. simpl.
      by rewrite Hworld, Hctx.
    - apply default_chain_nil. unfold default_child, leaf. simpl.
      by rewrite Hworld; simpl; rewrite Hctx. }
  split; [done|]. unfold after. by rewrite Hrun.
Qed.

Lemma X4_changeState_to_root_witness :
  let m := after (changeState 4 "a" false) example_chain in
  ∃ curNodes,
    resolve (heap m) (_worldState m) (_currentStateDescr m) = Some curNodes ∧
    run (changeState 1 "" false) m
    = (with_currentStateDescr m [], Exit <$> rev curNodes, Return tt) ∧
    currentState (after (changeState 1 "" false) m) = "".
Proof.
  intros m. apply (X4_changeState_to_root m 1 false); [|lia].
  apply reachable_after_changeState; [apply reachable_registered|]. by vm_compute.
Defined.

(** X5. On a manager a program built, the state a path leads to was
    registered under the last segment of that path: the key of its name is
    the key of the segment.  Calling [enter] (or [exit]) on it calls the
    [enter] (or [exit]) function of its context with that name when the
    context has such a function, and calls nothing otherwise. *)
Theorem X5_callback_gets_own_name m descr nodes i l x :
  reachable m →
  resolve (heap m) (_worldState m) descr = Some nodes →
  nodes !! i = Some l → descr !! i = Some x →
  ∃ st,
    heap m !! l = Some st ∧
    to_key (_name st) = to_key x ∧
    callbacks (heap m) [Enter l]
    = (if has_enter st then [ContextEnter (_name st)] else []) ∧
    callbacks (heap m) [Exit l]
    = (if has_exit st then [ContextExit (_name st)] else []).
Proof.
  intros Hreach Hnodes Hl Hx.
  destruct (reachable_wf m Hreach) as (_ & Hwf & _).
  destruct (reachable_wf_objects m Hreach) as [_ Hall].
  destruct (resolve_lookup _ _ Hwf _ _ _ _ _ Hnodes Hl Hx) as (st & Hst & Hname).
  exists st. split_and!; [done..| |].
  - rewrite Forall_forall in Hall.
    destruct (Hall st) as [Henter _]; [apply list_elem_of_lookup; eauto|].
    unfold callbacks. simpl. rewrite Hst. simpl. rewrite Henter, app_nil_r.
    unfold has_enter. simpl. destruct (_context st) as [c|]; simpl; [|done].
    by destruct (ctx_enter c).
  - rewrite Forall_forall in Hall.
    destruct (Hall st) as [_ Hexit]; [apply list_elem_of_lookup; eauto|].
    unfold callbacks. simpl. rewrite Hst. simpl. rewrite Hexit, app_nil_r.
    unfold has_exit. simpl. destruct (_context st) as [c|]; simpl; [|done].
    by destruct (ctx_exit c).
Qed.

Lemma X5_callback_gets_own_name_witness :
  ∃ st,
    heap example_tree !! 4 = Some st ∧
    to_key (_name st) = to_key (Str "d") ∧
    callbacks (heap example_tree) [Enter 4]
    = (if has_enter st then [ContextEnter (_name st)] else []) ∧
    callbacks (heap example_tree) [Exit 4]
    = (if has_exit st then [ContextExit (_name st)] else []).
Proof.
  apply (X5_callback_gets_own_name example_tree
           [Str "a"; Str "b"; Str "d"] [1; 2; 4] 2 4 (Str "d")).
  - apply reachable_registered.
  - by vm_compute.
  - done.
  - done.
Defined.

(** X6. A transition that returns normally ends in a state without default
    substate: the loop over the default substates stops only there, so the
    last state of the current path has none ([getDefaultSubstate] returns
    [null] on it). *)
Theorem X6_transition_ends_without_default m fuel newStateStr forceAll m' log :
  wf m →
  run (changeState fuel newStateStr forceAll) m = (m', log, Return tt) →
  ∃ nodes,
    resolve (heap m') (_worldState m') (_currentStateDescr m') = Some nodes ∧
    default_child (heap m') (leaf (_worldState m') nodes) = None ∧
    ∀ log', getDefaultSubstate (leaf (_worldState m') nodes) (m', log')
            = ((m', log'), Return None).
Proof.
  intros Hm Hrun. pose proof Hm as (Hworld & Hwf & _).
  destruct (changeState_cases m fuel newStateStr forceAll Hm) as (curNodes & Hcur & Hcases).
  destruct (resolve (heap m) (_worldState m) (stateDescrFromStateStr newStateStr))
    as [newNodes|] eqn:Hnew; [|by rewrite Hcases in Hrun].
  destruct Hcases as (chain & Hchain & _ & Hcases). case_decide.
  2:{ unfold completion_of in Hcases. by rewrite Hrun in Hcases. }
  rewrite Hcases in Hrun. injection Hrun as <- _ Hret.
  exists (newNodes ++ chain). simpl.
  assert (default_child (heap m) (leaf (_worldState m) (newNodes ++ chain)) = None)
    as Hnone by (rewrite leaf_app; by apply default_chain_end).
  split_and!; [|done|].
  - rewrite resolve_app, Hnew. simpl.
    by rewrite (default_chain_resolve _ Hwf _ _ Hchain).
  - intros log'.
    assert (is_Some (heap m !! leaf (_worldState m) (newNodes ++ chain))) as [st Hst].
    { eapply (leaf_is_Some _ Hwf _ (_ ++ _)); [done|].
      rewrite resolve_app, Hnew. simpl.
      by rewrite (default_chain_resolve _ Hwf _ _ Hchain). }
    destruct (getDefaultSubstate_run (leaf (_worldState m) (newNodes ++ chain)) st
                (with_currentStateDescr m
                   (stateDescrFromStateStr newStateStr ++ (name_of (heap m) <$> chain)),
                 log')) as (d & -> & Hd); [done|].
    simpl in Hd. rewrite Hnone in Hd. rewrite leaf_app in Hd.
    unfold cascade_completion in Hret.
    destruct (default_inherited _ _); [done|]. by subst d.
Qed.

Lemma X6_transition_ends_without_default_witness :
  let m' := with_currentStateDescr example_chain [Str "a"; Str "b"; Str "c"] in
  ∃ nodes,
    resolve (heap m') (_worldState m') (_currentStateDescr m') = Some nodes ∧
    default_child (heap m') (leaf (_worldState m') nodes) = None ∧
    ∀ log', getDefaultSubstate (leaf (_worldState m') nodes) (m', log')
            = ((m', log'), Return None).
Proof.
  intros m'.
  apply (X6_transition_ends_without_default example_chain 4 "a" false m'
           [Enter 1; Enter 2; Enter 3]).
  - apply wf_registered.
  - by vm_compute.
Defined.

(** X7. Asking again for the state just asked for is not silent when that
    state has default substates: a second [changeState(p)] without
    [forceAll] exits the chain of default substates below [p], deepest
    first, and enters it again, and leaves the manager as it was; it calls
    nothing when [p] has no default substate.  Both calls complete as the
    loop over the default substates does. *)
Theorem X7_repeated_transition m fuel p forceAll nodes chain :
  wf m →
  resolve (heap m) (_worldState m) (stateDescrFromStateStr p) = Some nodes →
  default_chain (heap m) (leaf (_worldState m) nodes) chain →
  length chain < fuel →
  let m1 := after (changeState fuel p forceAll) m in
  let r := cascade_completion (heap m) (leaf (leaf (_worldState m) nodes) chain) in
  completion_of (changeState fuel p forceAll) m = r ∧
  run (changeState fuel p false) m1
  = (m1, (Exit <$> rev chain) ++ (Enter <$> chain), r).
Proof.
  intros Hm Hnodes Hchain Hfuel m1 r. pose proof Hm as (Hworld & Hwf & [curNodes Hcur]).
  pose proof (changeState_resolved m fuel p forceAll _ _ _ Hm Hcur Hnodes Hchain Hfuel)
    as Hrun.
  destruct (changeState_wf _ _ _ _ _ _ _ Hm Hrun (cascade_completion_completes _ _))
    as (Hm1 & _ & _).
  unfold m1, completion_of, after. rewrite Hrun. simpl. split; [done|].
  set (m2 := with_currentStateDescr m _) in *.
  assert (resolve (heap m2) (_worldState m2) (_currentStateDescr m2)
          = Some (nodes ++ chain)) as Hcur2.
  { simpl. rewrite resolve_app, Hnodes. simpl.
    by rewrite (default_chain_resolve _ Hwf _ _ Hchain). }
  rewrite (changeState_resolved m2 fuel p false (nodes ++ chain) nodes chain); try done.
  simpl. rewrite common_prefix_length_app. unfold touched.
  rewrite <-(resolve_length _ _ _ _ Hnodes), drop_app_length, drop_all. done.
Qed.

Lemma X7_repeated_transition_witness :
  let m1 := after (changeState 4 "a" false) example_chain in
  completion_of (changeState 4 "a" false) example_chain = Return tt ∧
  run (changeState 4 "a" false) m1
  = (m1, (Exit <$> rev [2; 3]) ++ (Enter <$> [2; 3]), Return tt).
Proof.
  apply (X7_repeated_transition example_chain 4 "a" false [1] [2; 3]).
  - apply wf_registered.
  - by vm_compute.
  - apply default_chain_cons with (c := 2); [by vm_compute|].
    apply default_chain_cons with (c := 3); [by vm_compute|].
    apply default_chain_nil. by vm_compute.
  - simpl. lia.
Defined.

(** X8. Over any sequence of [registerState] calls and of [changeState] calls
    that return normally, forced or not, the [enter] and [exit] calls nest
    like a stack: [exit] is only ever called on the state that was entered
    last among those not yet exited, and after every call the states
    entered and not exited are exactly the states of the current path,
    outermost first. *)
Theorem X8_calls_nest m log :
  history m log →
  replay log [] = resolve (heap m) (_worldState m) (_currentStateDescr m) ∧
  is_Some (replay log []).
Proof.
  intros Hhist.
  assert (replay log [] = resolve (heap m) (_worldState m) (_currentStateDescr m)) as Heq.
  2:{ split; [done|]. rewrite Heq. apply (reachable_wf m), (history_reachable m log Hhist). }
  induction Hhist as [|m log stateStr context m' log' r Hhist IH Hrun
                      |m log fuel newStateStr forceAll m' log' Hhist IH Hrun].
  - done.
  - pose proof (reachable_wf m (history_reachable _ _ Hhist)) as Hm.
    destruct (registerState_wf _ _ _ _ _ _ Hm Hrun) as (_ & Hext & Hw & Hpath).
    pose proof (keeps_path_registerState stateStr context (m, [])) as (_ & _ & Hlog).
    unfold run in Hrun. rewrite Hrun in Hlog. simpl in Hlog. subst log'.
    rewrite app_nil_r, IH, Hw, Hpath.
    destruct Hm as (_ & _ & [curNodes Hcur]). rewrite Hcur.
    symmetry. by eapply extends_resolve.
  - pose proof (reachable_wf m (history_reachable _ _ Hhist)) as Hm.
    pose proof Hm as (_ & Hwf & _).
    destruct (changeState_cases m fuel newStateStr forceAll Hm)
      as (curNodes & Hcur & Hcases).
    set (new := stateDescrFromStateStr newStateStr) in *.
    set (k := common_prefix_length (_currentStateDescr m) new) in *.
    destruct (resolve (heap m) (_worldState m) new) as [newNodes|] eqn:Hnew;
      [|by rewrite Hcases in Hrun].
    destruct Hcases as (chain & Hchain & _ & Hcases). case_decide.
    2:{ unfold completion_of in Hcases. by rewrite Hrun in Hcases. }
    rewrite Hcases in Hrun. injection Hrun as <- <- _. simpl.
    rewrite resolve_app, Hnew. simpl.
    rewrite (default_chain_resolve _ Hwf _ _ Hchain). simpl.
    rewrite replay_app, IH, Hcur. simpl.
    assert (∃ pre, curNodes = pre ++ touched k forceAll curNodes ∧
                   newNodes = pre ++ touched k forceAll newNodes)
      as (pre & Hc & Hn).
    { unfold touched. destruct forceAll; [by exists []|].
      exists (take k curNodes). split; [by rewrite take_drop|].
      pose proof (resolve_take _ _ _ _ k Hcur) as H1.
      pose proof (resolve_take _ _ _ _ k Hnew) as H2.
      unfold k in H1 at 1. rewrite common_prefix_length_take in H1. fold k in H1.
      assert (take k curNodes = take k newNodes) as -> by congruence.
      by rewrite take_drop. }
    rewrite Hc at 2. rewrite replay_app, replay_exits. simpl.
    rewrite replay_app, replay_enters. simpl.
    rewrite replay_enters. by rewrite <-Hn.
Qed.

Lemma X8_calls_nest_witness :
  let m := after (changeState 4 "a" false) example_chain in
  replay ([] ++ [Enter 1; Enter 2; Enter 3]) []
  = resolve (heap m) (_worldState m) (_currentStateDescr m) ∧
  is_Some (replay ([] ++ [Enter 1; Enter 2; Enter 3]) []).
Proof.
  intros m. apply (X8_calls_nest m).
  apply (history_changeState example_chain [] 4 "a" false).
  - apply history_registered.
  - by vm_compute.
Defined.

(** X9. A state that was registered can be found: after
    [registerState(s, context)] returned normally for a string [s] that is
    not empty, the path [s], which did not resolve before, leads through the
    states of its ancestors to the one new state, whose name is the last
    segment of [s], a string, and whose context is [context]. *)
Theorem X9_registered_path_resolves m stateStr context m' log :
  wf m → stateStr ≠ "" →
  run (registerState stateStr context) m = (m', log, Return tt) →
  let stateDescr := stateDescrFromStateStr stateStr in
  ∃ nodes name,
    resolve (heap m) (_worldState m) (ancestors stateDescr) = Some nodes ∧
    resolve (heap m) (_worldState m) stateDescr = None ∧
    resolve (heap m') (_worldState m') stateDescr = Some (nodes ++ [length (heap m)]) ∧
    last_segment stateDescr = Str name ∧
    heap m' !! length (heap m) = Some (new_State (Str name) context).
Proof.
  intros Hm Hs Hrun stateDescr. pose proof Hm as (Hworld & Hwf & _).
  pose proof (ancestors_last_segment stateDescr
                (stateDescrFromStateStr_not_nil _ Hs)) as Hdescr.
  assert (∃ name, last_segment stateDescr = Str name) as [name Hname].
  { pose proof (stateDescrFromStateStr_segments stateStr) as Hall.
    fold stateDescr in Hall.
    rewrite Hdescr in Hall. apply Forall_app in Hall as [_ Hall].
    apply Forall_singleton in Hall as (name & -> & _). by exists name. }
  destruct (registerState_wf _ _ _ _ _ _ Hm Hrun) as (_ & Hext & Hw & _).
  rewrite (registerState_run m stateStr context Hm) in Hrun. cbv zeta in Hrun.
  fold stateDescr in Hrun.
  set (anc := ancestors stateDescr) in *. set (lst := last_segment stateDescr) in *.
  destruct (resolve (heap m) (_worldState m) anc) as [nodes|] eqn:Hr;
    [|by destruct (ancestor_walk _ _ _)].
  pose proof (leaf_is_Some _ Hwf _ _ _ Hworld Hr) as [st Hst].
  rewrite Hst in Hrun. destruct (js_in _ _) eqn:Hdup; [done|].
  apply js_in_false in Hdup as [Hdup _]. injection Hrun as <- _. simpl in Hext |- *.
  exists nodes, name. split_and!; [done| | |done|].
  - rewrite Hdescr, resolve_snoc, Hr. simpl. unfold child. rewrite Hst. simpl.
    by rewrite Hdup.
  - rewrite Hdescr, resolve_snoc.
    rewrite (extends_resolve _ _ _ _ _ Hext Hr). simpl.
    rewrite (child_register _ _ _ _ _ _ _ _ Hst). by rewrite decide_True.
  - rewrite <-Hname.
    rewrite list_lookup_insert_ne by (apply lookup_lt_Some in Hst; lia).
    rewrite lookup_app_r by done. by rewrite Nat.sub_diag.
Qed.

Lemma X9_registered_path_resolves_witness :
  let m' := after (registerState "a.c.e" logging) example_tree in
  ∃ nodes name,
    resolve (heap example_tree) (_worldState example_tree)
      (ancestors (stateDescrFromStateStr "a.c.e")) = Some nodes ∧
    resolve (heap example_tree) (_worldState example_tree)
      (stateDescrFromStateStr "a.c.e") = None ∧
    resolve (heap m') (_worldState m') (stateDescrFromStateStr "a.c.e")
    = Some (nodes ++ [length (heap example_tree)]) ∧
    last_segment (stateDescrFromStateStr "a.c.e") = Str name ∧
    heap m' !! length (heap example_tree) = Some (new_State (Str name) logging).
Proof.
  intros m'.
  apply (X9_registered_path_resolves example_tree "a.c.e" logging m' []).
  - apply wf_registered.
  - done.
  - by vm_compute.
Defined.

(** Decides an equivalence between a completion and what resolves, once
    both sides are known. *)
Local Ltac outcome :=
  unfold is_Some; split_and!; split; try done;
  intros; destruct_and?; destruct_or?; destruct_and?;
  repeat match goal with H : ∃ _, _ |- _ => destruct H end;
  try done; try congruence;
  first [ by split_and?; eauto | left; by eauto | right; by eauto ].

(** X10. For a string that is not empty, how [registerState] ends is decided
    by what resolves and by the names of the inherited properties: it throws
    ['SubstateAlreadyExists'] exactly when the path without its last segment
    resolves and the last segment is the name of a substate there or of an
    inherited property; it throws ['UnknownSubstate'] exactly when the first
    of the segments before the last that does not resolve is not the name of
    an inherited property, and a [TypeError] exactly when it is; and it
    returns normally exactly when the path without its last segment
    resolves, the whole path does not, and the last segment is not the name
    of an inherited property. *)
Theorem X10_registerState_outcome m stateStr context :
  wf m → stateStr ≠ "" →
  let stateDescr := stateDescrFromStateStr stateStr in
  let r := completion_of (registerState stateStr context) m in
  let proto := inherited (to_key (last_segment stateDescr)) in
  let proto_before :=
    fails_at_inherited (heap m) (_worldState m) (ancestors stateDescr) in
  (r = Throw SubstateAlreadyExists
   ↔ is_Some (resolve (heap m) (_worldState m) stateDescr) ∨
     is_Some (resolve (heap m) (_worldState m) (ancestors stateDescr)) ∧ proto = true) ∧
  (r = Throw UnknownSubstate
   ↔ resolve (heap m) (_worldState m) (ancestors stateDescr) = None ∧
     proto_before = false) ∧
  (r = Throw TypeError
   ↔ resolve (heap m) (_worldState m) (ancestors stateDescr) = None ∧
     proto_before = true) ∧
  (r = Return tt
   ↔ is_Some (resolve (heap m) (_worldState m) (ancestors stateDescr)) ∧
     resolve (heap m) (_worldState m) stateDescr = None ∧ proto = false).
Proof.
  intros Hm Hs stateDescr r proto proto_before. pose proof Hm as (Hworld & Hwf & _).
  pose proof (ancestors_last_segment stateDescr
                (stateDescrFromStateStr_not_nil _ Hs)) as Hdescr.
  pose proof (registerState_run m stateStr context Hm) as Hrun. cbv zeta in Hrun.
  fold stateDescr in Hrun. unfold r, completion_of, proto, proto_before.
  clear r proto proto_before.
  set (anc := ancestors stateDescr) in *. set (lst := last_segment stateDescr) in *.
  rewrite Hdescr, resolve_snoc.
  destruct (resolve (heap m) (_worldState m) anc) as [nodes|] eqn:Hr.
  - pose proof (leaf_is_Some _ Hwf _ _ _ Hworld Hr) as [st Hst].
    rewrite Hst in Hrun. rewrite (js_in_child _ _ _ _ Hst) in Hrun. simpl.
    destruct (child (heap m) (leaf (_worldState m) nodes) lst) as [c|] eqn:Hc.
    + rewrite bool_decide_true in Hrun by eauto. rewrite Hrun. simpl.
      outcome.
    + rewrite bool_decide_false in Hrun by (by intros [? ?]). simpl in Hrun.
      destruct (inherited (to_key lst)); rewrite Hrun; simpl;
        outcome.
  - pose proof (ancestor_walk_unresolved _ _ _ Hr) as Hw. rewrite Hrun. simpl.
    destruct (fails_at_inherited (heap m) (_worldState m) anc).
    + destruct Hw as [->|(key & _ & ->)]; simpl;
        outcome.
    + rewrite Hw. simpl. outcome.
Qed.

Lemma X10_registerState_outcome_witness :
  let stateDescr := stateDescrFromStateStr "a.__proto__" in
  let r := completion_of (registerState "a.__proto__" None) example_tree in
  let proto := inherited (to_key (last_segment stateDescr)) in
  let proto_before :=
    fails_at_inherited (heap example_tree) (_worldState example_tree)
      (ancestors stateDescr) in
  (r = Throw SubstateAlreadyExists
   ↔ is_Some (resolve (heap example_tree) (_worldState example_tree) stateDescr) ∨
     is_Some (resolve (heap example_tree) (_worldState example_tree)
                (ancestors stateDescr)) ∧ proto = true) ∧
  (r = Throw UnknownSubstate
   ↔ resolve (heap example_tree) (_worldState example_tree) (ancestors stateDescr)
     = None ∧ proto_before = false) ∧
  (r = Throw TypeError
   ↔ resolve (heap example_tree) (_worldState example_tree) (ancestors stateDescr)
     = None ∧ proto_before = true) ∧
  (r = Return tt
   ↔ is_Some (resolve (heap example_tree) (_worldState example_tree)
                (ancestors stateDescr)) ∧
     resolve (heap example_tree) (_worldState example_tree) stateDescr = None ∧
     proto = false).
Proof.
  apply (X10_registerState_outcome example_tree "a.__proto__" None).
  - apply wf_registered.
  - done.
Defined.

(** X11. The states of a manager a program built form a tree: a state is
    reached by one path only.  Two paths that lead from the world state to
    the same state lead through the same states and have the same segments
    (as property keys), so different paths stand for different [State]
    objects. *)
Theorem X11_one_path_per_state m descr1 descr2 nodes1 nodes2 c :
  reachable m →
  resolve (heap m) (_worldState m) descr1 = Some nodes1 →
  resolve (heap m) (_worldState m) descr2 = Some nodes2 →
  last nodes1 = Some c → last nodes2 = Some c →
  nodes1 = nodes2 ∧ to_key <$> descr1 = to_key <$> descr2.
Proof.
  intros Hreach Hr1 Hr2 Hl1 Hl2.
  apply last_Some in Hl1 as [n1 ->]. apply last_Some in Hl2 as [n2 ->].
  destruct (resolve_inj m (reachable_wf m Hreach) (reachable_tree m Hreach)
              _ _ _ _ _ Hr1 Hr2) as [-> ?].
  done.
Qed.

Lemma X11_one_path_per_state_witness :
  [1; 5; 6] = [1; 5; 6] ∧
  to_key <$> [Str "a"; Str "c"; Str "d"] = to_key <$> stateDescrFromStateStr "a.c.d".
Proof.
  apply (X11_one_path_per_state example_tree
           [Str "a"; Str "c"; Str "d"] (stateDescrFromStateStr "a.c.d")
           [1; 5; 6] [1; 5; 6] 6).
  - apply reachable_registered.
  - by vm_compute.
  - by vm_compute.
  - done.
  - done.
Defined.



(** X13. Going up a branch enters only default substates: when the current
    path extends the target path, an unforced [changeState] calls [exit] on
    the states of the current path below the target, deepest first, and no
    [enter] on a state of the target path; it then enters the default
    substates below the target, which may be states it has just exited, and
    completes as the loop over the default substates does. *)
Theorem X13_ascending_enters_defaults_only m fuel p rest curNodes newNodes chain :
  wf m →
  _currentStateDescr m = stateDescrFromStateStr p ++ rest →
  resolve (heap m) (_worldState m) (_currentStateDescr m) = Some curNodes →
  resolve (heap m) (_worldState m) (stateDescrFromStateStr p) = Some newNodes →
  default_chain (heap m) (leaf (_worldState m) newNodes) chain →
  length chain < fuel →
  run (changeState fuel p false) m
  = (with_currentStateDescr m
       (stateDescrFromStateStr p ++ (name_of (heap m) <$> chain)),
     (Exit <$> rev (drop (length (stateDescrFromStateStr p)) curNodes))
     ++ (Enter <$> chain),
     cascade_completion (heap m) (leaf (leaf (_worldState m) newNodes) chain)).
Proof.
  intros Hm Hp Hcur Hnew Hchain Hfuel.
  rewrite (changeState_resolved m fuel p false curNodes newNodes chain); try done.
  rewrite Hp, common_prefix_length_app. unfold touched.
  rewrite <-(resolve_length _ _ _ _ Hnew) at 2. by rewrite drop_all.
Qed.

Lemma X13_ascending_enters_defaults_only_witness :
  let m := after (changeState 7 "a.b.c" false) example_tree in
  run (changeState 7 "a" false) m
  = (with_currentStateDescr m
       (stateDescrFromStateStr "a" ++ (name_of (heap m) <$> [])),
     (Exit <$> rev (drop (length (stateDescrFromStateStr "a")) [1; 2; 3]))
     ++ (Enter <$> []),
     Return tt).
Proof.
  intros m.
  apply (X13_ascending_enters_defaults_only m 7 "a" [Str "b"; Str "c"]
           [1; 2; 3] [1] []).
  - apply reachable_wf, reachable_after_changeState; [apply reachable_registered|].
    by vm_compute.
  - by vm_compute.
  - by vm_compute.
  - by vm_compute.
  - apply default_chain_nil. by vm_compute.
  - simpl. lia.
Defined.
